(** * vmctl native client: a shallow embedding of [app/vmctl/native/client.go]

    The file follows the Go source function by function.  Go values are
    modelled as follows.

    - [error] values are kept with their formatted message and, for the
      [%w] verb, the wrapped cause.
    - [url.Values] and [http.Header] are finite maps from keys to value
      lists; [Set] replaces the list of a key by a singleton.
    - A Go multi-value return [(v, err)] of an exported method is a pair
      whose second component is [option error] ([None] is [nil]); a
      [[]string] is a [list string] and the [nil] slice is [[]].
    - Input and output (the HTTP round trip, reading, decoding and closing
      a body, the log) go through a state monad over the trace of effects
      performed so far.
    - The goroutines of [Explore] are a transition system whose events are
      chosen by a schedule. *)

From stdpp Require Import base strings gmap list pretty.

Local Open Scope string_scope.
Local Open Scope Z_scope.
Local Open Scope list_scope.

(** ** Go errors *)

Inductive error : Type :=
  | ErrorString (msg : string)
  | WrapError (msg : string) (cause : error).

(** [err.Error()] *)
Definition Error (e : error) : string :=
  match e with
  | ErrorString msg => msg
  | WrapError msg _ => msg
  end.

(** [errors.Unwrap] *)
Definition Unwrap (e : error) : option error :=
  match e with
  | ErrorString _ => None
  | WrapError _ cause => Some cause
  end.

(** The errors reachable from [e] by [errors.Unwrap], [e] first: the
    candidates [errors.Is] compares against. *)
Fixpoint errors_chain (e : error) : list error :=
  e :: match e with
       | ErrorString _ => []
       | WrapError _ cause => errors_chain cause
       end.

(** [fmt.Errorf(prefix + "%s", err)] *)
Definition Errorf_s (prefix : string) (err : error) : error :=
  ErrorString (prefix +:+ Error err).

(** [fmt.Errorf(prefix + "%w", err)] *)
Definition Errorf_w (prefix : string) (err : error) : error :=
  WrapError (prefix +:+ Error err) err.

Definition context_Canceled : error := ErrorString "context canceled".
Definition context_DeadlineExceeded : error :=
  ErrorString "context deadline exceeded".

(** [s] occurs in [t] *)
Definition contains (t s : string) : Prop :=
  ∃ pre post : string, t = pre +:+ s +:+ post.

(** ** HTTP data *)

(** [Values.Set] and [Header.Set] *)
Definition Set_ (key value : string) (m : gmap string (list string))
  : gmap string (list string) :=
  <[key := [value]]> m.

Inductive Method : Type := MethodGet | MethodPost.

(** A [context.Context]: the caller's, or the one derived from it by
    [errgroup.WithContext]. *)
Inductive Context : Type :=
  | CallerCtx (name : string)
  | GroupCtx (parent : Context).

(** A response body (an [io.ReadCloser]): what reading it to the end yields
    and what closing it yields. *)
Record Body : Type := mkBody {
  body_data : string;
  body_read_err : option error;
  body_close_err : option error;
}.

(** [http.Request].  [req_url] is the URL string the request was built
    from; [req_query] is [URL.RawQuery], kept decoded. [req_body] is the
    request body reader, [None] for [nil]. *)
Record Request : Type := mkRequest {
  req_ctx : Context;
  req_method : Method;
  req_url : string;
  req_query : gmap string (list string);
  req_header : gmap string (list string);
  req_body : option Body;
}.

Definition with_query (req : Request) (q : gmap string (list string)) : Request :=
  mkRequest (req_ctx req) (req_method req) (req_url req) q
            (req_header req) (req_body req).

Definition with_header (req : Request) (h : gmap string (list string)) : Request :=
  mkRequest (req_ctx req) (req_method req) (req_url req) (req_query req)
            h (req_body req).

(** [http.Response] *)
Record HTTPResponse : Type := mkHTTPResponse {
  StatusCode : Z;
  resp_Body : Body;
}.

Definition StatusOK : Z := 200.
Definition StatusNoContent : Z := 204.

(** [Response] of the source: the answer of api/v1/label/__name__/values *)
Record Response : Type := mkResponse {
  Status : string;
  MetricNames : list string;
}.

(** [Filter] (declared in the same package, outside client.go) *)
Record Filter : Type := mkFilter {
  Match : string;
  TimeStart : string;
  TimeEnd : string;
  Chunk : string;
}.

Definition nativeTenantsAddr : string := "admin/tenants".
Definition nativeMetricNamesAddr : string := "api/v1/label/__name__/values".

(** Modelled from the spec: the step-size constants of package [stepper],
    which is not part of the sources at hand; the spec lists the chunk
    values minute, hour, day, week, month, year. *)
Module stepper.
Definition StepMinute : string := "minute".
Definition StepHour : string := "hour".
Definition StepDay : string := "day".
Definition StepWeek : string := "week".
Definition StepMonth : string := "month".
End stepper.

(** ** Effects *)

(** One observable effect of the client. *)
Inductive io (AuthConfig : Type) : Type :=
  | io_SetHeaders (cfg : AuthConfig) (req : Request) (primary : bool)
  | io_Do (req : Request)
  | io_ReadAll (b : Body)
  | io_Decode (b : Body)
  | io_Close (b : Body)
  | io_Log (msg : string).
Arguments io_SetHeaders {_} _ _ _.
Arguments io_Do {_} _.
Arguments io_ReadAll {_} _.
Arguments io_Decode {_} _.
Arguments io_Close {_} _.
Arguments io_Log {_} _.

(** The packages the client calls into.  Their code is outside the file
    under study; each is a parameter with the signature the call sites
    use.  [auth_SetHeaders] only produces headers, as its contract says. *)
Class Packages : Type := {
  Time : Type;
  utils_GetTime : string → error + Time;
  stepper_SplitDateRange : Time → Time → string → bool → error + list (Time * Time);
  time_Format_RFC3339 : Time → string;
  url_Parse : string → error + gmap string (list string);
  strconv_Quote : string → string;
  auth_Config : Type;
  auth_SetHeaders : auth_Config → gmap string (list string) → bool → gmap string (list string);
  json_Decode_Response : Body → error + Response;
  json_Decode_Tenants : Body → error + list string;
}.

Section client.
Context `{Packages}.

(** The requests sent so far, oldest first. *)
Definition sent (t : list (io auth_Config)) : list Request :=
  omap (λ e, match e with io_Do req => Some req | _ => None end) t.

(** The calls of the header hook so far. *)
Definition hooked (t : list (io auth_Config)) : list (auth_Config * Request * bool) :=
  omap (λ e, match e with
             | io_SetHeaders cfg req primary => Some (cfg, req, primary)
             | _ => None
             end) t.

(** The bodies read to the end, decoded and closed so far. *)
Definition drained (t : list (io auth_Config)) : list Body :=
  omap (λ e, match e with io_ReadAll b => Some b | _ => None end) t.
Definition decoded (t : list (io auth_Config)) : list Body :=
  omap (λ e, match e with io_Decode b => Some b | _ => None end) t.
Definition closed (t : list (io auth_Config)) : list Body :=
  omap (λ e, match e with io_Close b => Some b | _ => None end) t.

(** The messages logged so far. *)
Definition logged (t : list (io auth_Config)) : list string :=
  omap (λ e, match e with io_Log m => Some m | _ => None end) t.

(** [Client].  [HTTPClient] gives the outcome of [HTTPClient.Do]: an error,
    or a response; it may depend on everything that happened before. *)
Record Client : Type := mkClient {
  AuthCfg : option auth_Config;
  Addr : string;
  ExtraLabels : list string;
  HTTPClient : list (io auth_Config) → Request → error + HTTPResponse;
}.

(** *** The effect monad *)

Definition M (A : Type) : Type := list (io auth_Config) → A * list (io auth_Config).

#[export] Instance M_ret : MRet M := λ A a t, (a, t).
#[export] Instance M_bind : MBind M :=
  λ A B k m t, let '(a, t') := m t in k a t'.
Definition emit (e : io auth_Config) : M unit := λ t, (tt, t ++ [e]).

(** [c.AuthCfg.SetHeaders(req, true)]: the request's headers are replaced. *)
Definition SetHeaders (cfg : auth_Config) (req : Request) (primary : bool) : M Request :=
  emit (io_SetHeaders cfg req primary) ;;
  mret (with_header req (auth_SetHeaders cfg (req_header req) primary)).

(** [c.HTTPClient.Do(req)] *)
Definition HTTPClient_Do (c : Client) (req : Request) : M (error + HTTPResponse) :=
  λ t, (HTTPClient c t req, t ++ [io_Do req]).

(** [io.ReadAll(body)] *)
Definition io_ReadAll_ (b : Body) : M (string * option error) :=
  emit (io_ReadAll b) ;; mret (body_data b, body_read_err b).

(** [body.Close()] *)
Definition Close (b : Body) : M (option error) :=
  emit (io_Close b) ;; mret (body_close_err b).

(** [log.Printf] *)
Definition log_Printf (msg : string) : M unit := emit (io_Log msg).

(** [http.NewRequestWithContext]: fails when the URL does not parse;
    otherwise the request has the query component found in the URL and no
    headers. *)
Definition NewRequestWithContext (ctx : Context) (method : Method) (url : string)
    (body : option Body) : error + Request :=
  match url_Parse url with
  | inl err => inl err
  | inr q => inr (mkRequest ctx method url q ∅ body)
  end.

(** ** [do]

    The Go function returns [(nil, err)] or [(resp, nil)]: a sum. *)

Definition do (c : Client) (req : Request) (expSC : Z) : M (error + HTTPResponse) :=
  req ← match AuthCfg c with
        | Some cfg => SetHeaders cfg req true
        | None => mret req
        end;
  r ← HTTPClient_Do c req;
  match r with
  | inl err =>
      mret (inl (Errorf_w "unexpected error when performing request: " err))
  | inr resp =>
      if bool_decide (StatusCode resp ≠ expSC) then
        '(body, err) ← io_ReadAll_ (resp_Body resp);
        match err with
        | Some err =>
            mret (inl (Errorf_s
              ("failed to read response body for status code "
                 +:+ pretty (StatusCode resp) +:+ ": ") err))
        | None =>
            mret (inl (ErrorString
              ("unexpected response code " +:+ pretty (StatusCode resp)
                 +:+ ": " +:+ body)))
        end
      else mret (inr resp)
  end.

(** The request [do] passes to the transport, and the hook calls it makes
    first. *)
Definition sent_request (c : Client) (req : Request) : Request :=
  match AuthCfg c with
  | Some cfg => with_header req (auth_SetHeaders cfg (req_header req) true)
  | None => req
  end.

Definition hook_calls (c : Client) (req : Request) : list (io auth_Config) :=
  match AuthCfg c with
  | Some cfg => [io_SetHeaders cfg req true]
  | None => []
  end.

(** ** [ImportPipe] *)

Definition ImportPipe (c : Client) (ctx : Context) (dstURL : string) (pr : Body)
    : M (option error) :=
  match NewRequestWithContext ctx MethodPost dstURL (Some pr) with
  | inl err =>
      mret (Some (Errorf_s
        ("cannot create import request to " +:+ strconv_Quote (Addr c) +:+ ": ") err))
  | inr req =>
      r ← do c req StatusNoContent;
      match r with
      | inl err => mret (Some (Errorf_s "import request failed: " err))
      | inr importResp =>
          err ← Close (resp_Body importResp);
          match err with
          | Some err =>
              mret (Some (Errorf_s "cannot close import response body: " err))
          | None => mret None
          end
      end
  end.

(** ** [ExportPipe] *)

Definition ExportPipe (c : Client) (ctx : Context) (url : string) (f : Filter)
    : M (option Body * option error) :=
  match NewRequestWithContext ctx MethodGet url None with
  | inl err =>
      mret (None, Some (Errorf_s
        ("cannot create request to " +:+ strconv_Quote (Addr c) +:+ ": ") err))
  | inr req =>
      let params := req_query req in
      let params := Set_ "match[]" (Match f) params in
      let params := if bool_decide (TimeStart f ≠ "")
                    then Set_ "start" (TimeStart f) params else params in
      let params := if bool_decide (TimeEnd f ≠ "")
                    then Set_ "end" (TimeEnd f) params else params in
      let req := with_query req params in
      let req := with_header req (Set_ "Accept-Encoding" "identity" (req_header req)) in
      r ← do c req StatusOK;
      match r with
      | inl err => mret (None, Some (Errorf_w "export request failed: " err))
      | inr resp => mret (Some (resp_Body resp), None)
      end
  end.

(** ** [GetSourceTenants] *)

(** [json.NewDecoder(body).Decode(&v)] *)
Definition Decode {A} (dec : Body → error + A) (b : Body) : M (error + A) :=
  emit (io_Decode b) ;; mret (dec b).

Definition GetSourceTenants (c : Client) (ctx : Context) (f : Filter)
    : M (list string * option error) :=
  let u := Addr c +:+ "/" +:+ nativeTenantsAddr in
  match NewRequestWithContext ctx MethodGet u None with
  | inl err =>
      mret ([], Some (Errorf_s
        ("cannot create request to " +:+ strconv_Quote u +:+ ": ") err))
  | inr req =>
      let params := req_query req in
      let params := if bool_decide (TimeStart f ≠ "")
                    then Set_ "start" (TimeStart f) params else params in
      let params := if bool_decide (TimeEnd f ≠ "")
                    then Set_ "end" (TimeEnd f) params else params in
      let req := with_query req params in
      r ← do c req StatusOK;
      match r with
      | inl err => mret ([], Some (Errorf_s "tenants request failed: " err))
      | inr resp =>
          r ← Decode json_Decode_Tenants (resp_Body resp);
          match r with
          | inl err =>
              mret ([], Some (Errorf_s "cannot decode tenants response: " err))
          | inr Tenants =>
              err ← Close (resp_Body resp);
              match err with
              | Some err =>
                  mret ([], Some (Errorf_s "cannot close tenants response body: " err))
              | None => mret (Tenants, None)
              end
          end
      end
  end.

(** ** [Explore] *)

(** Lines 44-51: the chunk used for exploring. *)
Definition exploreChunk (f : Filter) : string :=
  if bool_decide (Chunk f = stepper.StepHour)
     || bool_decide (Chunk f = stepper.StepMinute)
     || bool_decide (Chunk f = stepper.StepDay)
     || bool_decide (Chunk f = "")
  then stepper.StepWeek
  else Chunk f.

(** Lines 53-66: parse both ends and split the interval. *)
Definition exploreRanges (f : Filter) : error + list (Time * Time) :=
  match utils_GetTime (TimeStart f) with
  | inl err =>
      inl (Errorf_s "failed to parse time start for explore metrics: " err)
  | inr start =>
      match utils_GetTime (TimeEnd f) with
      | inl err =>
          inl (Errorf_s "failed to parse time end for explore metrics: " err)
      | inr end_ =>
          match stepper_SplitDateRange start end_ (exploreChunk f) false with
          | inl err =>
              inl (Errorf_w "failed to create date ranges for explore metrics: " err)
          | inr ranges => inr ranges
          end
      end
  end.

(** The URL of the metric names API (lines 75-78). *)
Definition exploreURL (c : Client) (tenantID : string) : string :=
  let url := Addr c +:+ "/" +:+ nativeMetricNamesAddr in
  if bool_decide (tenantID ≠ "")
  then Addr c +:+ "/select/" +:+ tenantID +:+ "/prometheus/" +:+ nativeMetricNamesAddr
  else url.

(** Lines 84-92: the request of one sub-range, as handed to [do]. *)
Definition exploreParams (f : Filter) (times : Time * Time) (req : Request) : Request :=
  let start := time_Format_RFC3339 (fst times) in
  let end_ := time_Format_RFC3339 (snd times) in
  let params := req_query req in
  let params := if bool_decide (TimeStart f ≠ "")
                then Set_ "start" start params else params in
  let params := if bool_decide (TimeEnd f ≠ "")
                then Set_ "end" end_ params else params in
  let params := Set_ "match[]" (Match f) params in
  with_query req params.

(** Lines 72-106: the body of one goroutine up to its [select]; [inl] is
    an early [return err], [inr] carries [response.MetricNames]. *)
Definition exploreRequest (c : Client) (ctx : Context) (f : Filter)
    (tenantID : string) (times : Time * Time) : M (error + list string) :=
  let url := exploreURL c tenantID in
  match NewRequestWithContext ctx MethodGet url None with
  | inl err =>
      mret (inl (Errorf_s
        ("cannot create request to " +:+ strconv_Quote url +:+ ": ") err))
  | inr req =>
      let req := exploreParams f times req in
      r ← do c req StatusOK;
      match r with
      | inl err => mret (inl (Errorf_s "series request failed: " err))
      | inr resp =>
          r ← Decode json_Decode_Response (resp_Body resp);
          match r with
          | inl err =>
              mret (inl (Errorf_s "cannot decode series response: " err))
          | inr response =>
              err ← Close (resp_Body resp);
              match err with
              | Some err =>
                  mret (inl (Errorf_s "cannot close series response body: " err))
              | None => mret (inr (MetricNames response))
              end
          end
      end
  end.

(** *** The goroutines

    One task per sub-range.  A task is spawned, runs its request, then
    waits in the [select] offering its names, and returns in one of three
    ways. *)
Inductive task : Type :=
  | Spawned (times : Time * Time)
  | Offering (names : list string)
  | Delivered (names : list string)
  | Failed (err : error)
  | Abandoned (names : list string) (err : error).

Record state : Type := mkState {
  tasks : list task;
  parent_err : option error;  (* [Err()] of the caller's context *)
  ctx_err : option error;     (* [Err()] of the group's context *)
  g_err : option error;       (* the group's first error *)
  metricNames : list string;
  trace : list (io auth_Config);
}.

(** The [cancel] function of the derived context: once done, a context
    keeps its first [Err()]. *)
Definition cancel (σ : state) : state :=
  mkState (tasks σ) (parent_err σ)
          (match ctx_err σ with Some e => Some e | None => Some context_Canceled end)
          (g_err σ) (metricNames σ) (trace σ).

(** [errgroup.Group.Go], after the function returned [err]:
    [g.errOnce.Do(func() { g.err = err; g.cancel() })]. *)
Definition group_fail (err : error) (σ : state) : state :=
  match g_err σ with
  | Some _ => σ
  | None =>
      cancel (mkState (tasks σ) (parent_err σ) (ctx_err σ) (Some err)
                      (metricNames σ) (trace σ))
  end.

Inductive event : Type :=
  | ParentDone (err : error)  (* the caller's context is cancelled or expires *)
  | Run (i : nat)             (* task [i] runs lines 72-106 *)
  | Send (i : nat)            (* [case metricNamesC <- response.MetricNames] *)
  | CtxDone (i : nat).        (* [case <-ctx.Done()] *)

Definition step (c : Client) (ctx : Context) (f : Filter) (tenantID : string)
    (σ : state) (e : event) : option state :=
  match e with
  | ParentDone err =>
      match parent_err σ with
      | Some _ => None
      | None =>
          Some (mkState (tasks σ) (Some err)
                  (match ctx_err σ with Some e => Some e | None => Some err end)
                  (g_err σ) (metricNames σ) (trace σ))
      end
  | Run i =>
      match tasks σ !! i with
      | Some (Spawned times) =>
          let '(r, t) := exploreRequest c (GroupCtx ctx) f tenantID times (trace σ) in
          match r with
          | inl err =>
              Some (group_fail err
                      (mkState (<[i := Failed err]> (tasks σ)) (parent_err σ)
                         (ctx_err σ) (g_err σ) (metricNames σ) t))
          | inr names =>
              Some (mkState (<[i := Offering names]> (tasks σ)) (parent_err σ)
                      (ctx_err σ) (g_err σ) (metricNames σ) t)
          end
      | _ => None
      end
  | Send i =>
      match tasks σ !! i with
      | Some (Offering names) =>
          (* the main goroutine: [metricNames = append(metricNames, mn...)] *)
          Some (mkState (<[i := Delivered names]> (tasks σ)) (parent_err σ)
                  (ctx_err σ) (g_err σ) (metricNames σ ++ names) (trace σ))
      | _ => None
      end
  | CtxDone i =>
      match tasks σ !! i, ctx_err σ with
      | Some (Offering names), Some err =>
          Some (group_fail err
                  (mkState (<[i := Abandoned names err]> (tasks σ)) (parent_err σ)
                     (ctx_err σ) (g_err σ) (metricNames σ) (trace σ)))
      | _, _ => None
      end
  end.

(** The steps as a relation: the four kinds of step, with the state each
    leads to. *)
Inductive step_spec (c : Client) (ctx : Context) (f : Filter) (tenantID : string)
    (σ : state) : event → state → Prop :=
  | step_ParentDone err :
      parent_err σ = None →
      step_spec c ctx f tenantID σ (ParentDone err)
        (mkState (tasks σ) (Some err)
           (match ctx_err σ with Some e => Some e | None => Some err end)
           (g_err σ) (metricNames σ) (trace σ))
  | step_Run_fail i times err :
      tasks σ !! i = Some (Spawned times) →
      (exploreRequest c (GroupCtx ctx) f tenantID times (trace σ)).1 = inl err →
      step_spec c ctx f tenantID σ (Run i)
        (group_fail err
           (mkState (<[i := Failed err]> (tasks σ)) (parent_err σ) (ctx_err σ)
              (g_err σ) (metricNames σ)
              (exploreRequest c (GroupCtx ctx) f tenantID times (trace σ)).2))
  | step_Run_ok i times names :
      tasks σ !! i = Some (Spawned times) →
      (exploreRequest c (GroupCtx ctx) f tenantID times (trace σ)).1 = inr names →
      step_spec c ctx f tenantID σ (Run i)
        (mkState (<[i := Offering names]> (tasks σ)) (parent_err σ) (ctx_err σ)
           (g_err σ) (metricNames σ)
           (exploreRequest c (GroupCtx ctx) f tenantID times (trace σ)).2)
  | step_Send i names :
      tasks σ !! i = Some (Offering names) →
      step_spec c ctx f tenantID σ (Send i)
        (mkState (<[i := Delivered names]> (tasks σ)) (parent_err σ) (ctx_err σ)
           (g_err σ) (metricNames σ ++ names) (trace σ))
  | step_CtxDone i names err :
      tasks σ !! i = Some (Offering names) →
      ctx_err σ = Some err →
      step_spec c ctx f tenantID σ (CtxDone i)
        (group_fail err
           (mkState (<[i := Abandoned names err]> (tasks σ)) (parent_err σ)
              (ctx_err σ) (g_err σ) (metricNames σ) (trace σ))).

Fixpoint run (c : Client) (ctx : Context) (f : Filter) (tenantID : string)
    (σ : state) (sched : list event) : option state :=
  match sched with
  | [] => Some σ
  | e :: sched =>
      match step c ctx f tenantID σ e with
      | Some σ' => run c ctx f tenantID σ' sched
      | None => None
      end
  end.

Definition returned (t : task) : bool :=
  match t with
  | Spawned _ | Offering _ => false
  | Delivered _ | Failed _ | Abandoned _ _ => true
  end.

(** Lines 116-121, once every task has returned: [errs.Wait()] cancels the
    context and yields the first error, which is logged; the channel is
    closed. *)
Definition exploreWait (σ : state) : option state :=
  if forallb returned (tasks σ) then
    let σ := cancel σ in
    match g_err σ with
    | Some err =>
        Some (mkState (tasks σ) (parent_err σ) (ctx_err σ) (g_err σ) (metricNames σ)
                (trace σ ++ [io_Log ("error eplore metrics: " +:+ Error err)]))
    | None => Some σ
    end
  else None.

(** Lines 68-71: the state after the loop spawned one task per range. *)
Definition exploreInit (ranges : list (Time * Time)) (t : list (io auth_Config)) : state :=
  mkState (Spawned <$> ranges) None None None [] t.

(** The concurrent part of [Explore] under a schedule: [None] when the
    schedule names a step that cannot be taken or stops before every task
    returned. *)
Definition exploreRun (c : Client) (ctx : Context) (f : Filter) (tenantID : string)
    (ranges : list (Time * Time)) (sched : list event) (t : list (io auth_Config))
    : option state :=
  σ ← run c ctx f tenantID (exploreInit ranges t) sched;
  exploreWait σ.

Definition Explore (c : Client) (ctx : Context) (f : Filter) (tenantID : string)
    (sched : list event) (t : list (io auth_Config))
    : option (list string * option error * list (io auth_Config)) :=
  match exploreRanges f with
  | inl err => Some ([], Some err, t)
  | inr ranges =>
      σ ← exploreRun c ctx f tenantID ranges sched t;
      Some (metricNames σ, None, trace σ)
  end.

(** *** Reading a final state *)

(** The names a task offered in its [select], if it got that far: its
    request was answered with 200, decoded and closed. *)
Definition offered (t : task) : option (list string) :=
  match t with
  | Offering names | Delivered names | Abandoned names _ => Some names
  | Spawned _ | Failed _ => None
  end.

(** The names a task handed to the main goroutine. *)
Definition delivered (t : task) : option (list string) :=
  match t with
  | Delivered names => Some names
  | _ => None
  end.

(** The error a task returned. *)
Definition task_err (t : task) : option error :=
  match t with
  | Failed err | Abandoned _ err => Some err
  | _ => None
  end.

(** Some task of the state is in a condition [P]. *)
Definition some_task (P : task → Prop) (σ : state) : Prop :=
  ∃ i t, tasks σ !! i = Some t ∧ P t.

Definition is_Failed (t : task) : Prop := ∃ err, t = Failed err.
Definition is_Abandoned (t : task) : Prop := ∃ names err, t = Abandoned names err.
Definition has_err (t : task) : Prop := is_Some (task_err t).

(** The group has an error exactly when a task returned one; its context
    is done exactly when the caller's is or the group has an error; a task
    gives up its delivery only after the caller cancelled or a task failed. *)
Definition cancel_inv (σ : state) : Prop :=
  (is_Some (g_err σ) ↔ some_task has_err σ)
  ∧ (is_Some (ctx_err σ) ↔ is_Some (parent_err σ) ∨ is_Some (g_err σ))
  ∧ (some_task is_Abandoned σ → is_Some (parent_err σ) ∨ some_task is_Failed σ).

(** The list a task delivered, by its index; empty if it delivered none. *)
Definition block (ts : list task) (i : nat) : list string :=
  default [] (ts !! i ≫= delivered).

(** The names collected are the lists of the delivering tasks, whole, one
    after the other in the order of delivery. *)
Definition deliver_inv (σ : state) : Prop :=
  ∃ order : list nat,
    NoDup order
    ∧ (∀ i, i ∈ order ↔ ∃ names, tasks σ !! i = Some (Delivered names))
    ∧ metricNames σ = concat (block (tasks σ) <$> order).

(** The request a task sends for its sub-range: none if the URL does not
    parse. *)
Definition issued (c : Client) (ctx : Context) (f : Filter) (tenantID : string)
    (times : Time * Time) : list Request :=
  match NewRequestWithContext ctx MethodGet (exploreURL c tenantID) None with
  | inl _ => []
  | inr req => [sent_request c (exploreParams f times req)]
  end.

(** The names a task offers are what its own request phase returned, for
    its own range, at some earlier point of the trace. *)
Definition response_inv (c : Client) (ctx : Context) (f : Filter) (tenantID : string)
    (ranges : list (Time * Time)) (σ : state) : Prop :=
  ∀ i t names,
    tasks σ !! i = Some t → offered t = Some names →
    ∃ times t1,
      ranges !! i = Some times
      ∧ t1 `prefix_of` trace σ
      ∧ (exploreRequest c (GroupCtx ctx) f tenantID times t1).1 = inr names.

(** Task [i] was spawned for range [i]; nothing is logged while tasks run;
    every request sent since the trace [t0] is the request of some range. *)
Definition request_inv (c : Client) (ctx : Context) (f : Filter) (tenantID : string)
    (ranges : list (Time * Time)) (t0 : list (io auth_Config)) (σ : state) : Prop :=
  (∀ i times, tasks σ !! i = Some (Spawned times) → ranges !! i = Some times)
  ∧ length (tasks σ) = length ranges
  ∧ logged (trace σ) = logged t0
  ∧ ∃ reqs,
      sent (trace σ) = sent t0 ++ reqs
      ∧ ∀ r, r ∈ reqs →
          ∃ times, times ∈ ranges ∧ r ∈ issued c (GroupCtx ctx) f tenantID times.


(** The steps a task still has to take before it returns. *)
Definition pending (t : task) : nat :=
  match t with
  | Spawned _ => 2
  | Offering _ => 1
  | Delivered _ | Failed _ | Abandoned _ _ => 0
  end.

Fixpoint work (ts : list task) : nat :=
  match ts with
  | [] => 0
  | t :: ts => pending t + work ts
  end.

(** *** Requests that succeeded, read off the trace *)







(** The error the group holds is the error some task returned. *)
Definition first_err_inv (σ : state) : Prop :=
  ∀ e, g_err σ = Some e → some_task (λ tk, task_err tk = Some e) σ.

(** *** Two readings of the spec, to be compared with the code *)

(** As the spec words it: the context shared by the tasks is done only
    when the caller's is, never because a task returned an error. *)
Definition peer_failures_never_cancel (c : Client) (ctx : Context) (f : Filter)
    (tenantID : string) (ranges : list (Time * Time)) (t : list (io auth_Config))
    : Prop :=
  ∀ sched σ,
    run c ctx f tenantID (exploreInit ranges t) sched = Some σ →
    is_Some (ctx_err σ) → is_Some (parent_err σ).


(** As the spec words it: every failure of a sub-range is logged. *)
Definition failures_all_logged (c : Client) (ctx : Context) (f : Filter)
    (tenantID : string) (ranges : list (Time * Time)) (t : list (io auth_Config))
    : Prop :=
  ∀ sched σ i e,
    exploreRun c ctx f tenantID ranges sched t = Some σ →
    tasks σ !! i = Some (Failed e) →
    ("error eplore metrics: " +:+ Error e) ∈ logged (trace σ).

(** As the spec words it: the names returned are those of the sub-ranges
    that did not fail. *)
Definition remaining_names_returned (c : Client) (ctx : Context) (f : Filter)
    (tenantID : string) (ranges : list (Time * Time)) (t : list (io auth_Config))
    : Prop :=
  ∀ sched σ,
    exploreRun c ctx f tenantID ranges sched t = Some σ →
    metricNames σ ≡ₚ concat (omap offered (tasks σ)).

(** Whether a decoder accepts a body. *)
Definition decodes_ok {A} (dec : Body → error + A) (b : Body) : bool :=
  match dec b with
  | inr _ => true
  | inl _ => false
  end.

(** The range of a task that has not run yet. *)
Definition spawned (t : task) : option (Time * Time) :=
  match t with
  | Spawned times => Some times
  | _ => None
  end.

(** The requests sent since [t0], together with those of the tasks still
    to run, are one request per range. *)
Definition count_inv (c : Client) (ctx : Context) (f : Filter) (tenantID : string)
    (ranges : list (Time * Time)) (t0 : list (io auth_Config)) (σ : state) : Prop :=
  ∃ reqs,
    sent (trace σ) = sent t0 ++ reqs
    ∧ reqs ++ concat (issued c (GroupCtx ctx) f tenantID <$> omap spawned (tasks σ))
        ≡ₚ concat (issued c (GroupCtx ctx) f tenantID <$> ranges).

(** The error of a failed task is what its own request phase returned, for
    its own range, at some point. *)
Definition failure_inv (c : Client) (ctx : Context) (f : Filter) (tenantID : string)
    (ranges : list (Time * Time)) (σ : state) : Prop :=
  ∀ i err,
    tasks σ !! i = Some (Failed err) →
    ∃ times t1,
      ranges !! i = Some times
      ∧ (exploreRequest c (GroupCtx ctx) f tenantID times t1).1 = inl err.

(** The bodies decoded since [t0], and among them the ones closed: those
    that decoded. *)
Definition bodies_inv (t0 : list (io auth_Config)) (σ : state) : Prop :=
  ∃ dl : list Body,
    decoded (trace σ) = decoded t0 ++ dl
    ∧ closed (trace σ) =
        closed t0 ++ filter (λ b, decodes_ok json_Decode_Response b) dl.

(** The group's context ends with [context.Canceled] or with the caller's
    error, and so does every task that gave up. *)
Definition cause_inv (σ : state) : Prop :=
  (∀ e, ctx_err σ = Some e → e = context_Canceled ∨ parent_err σ = Some e)
  ∧ (∀ i names e, tasks σ !! i = Some (Abandoned names e) →
       e = context_Canceled ∨ parent_err σ = Some e).

End client.

(** ** A concrete world for examples

    Instants are Unix seconds; two timestamps are known to the parser; the
    splitter cuts at multiples of the step from the start; a URL with a
    blank in it does not parse. *)
Module demo.

Definition t0 : string := "2024-01-01T00:00:00Z".
Definition t1 : string := "2024-01-08T00:00:00Z".
Definition t2 : string := "2024-01-15T00:00:00Z".

Definition GetTime (s : string) : error + Z :=
  if bool_decide (s = t0) then inr 1704067200
  else if bool_decide (s = t1) then inr 1704672000
  else if bool_decide (s = t2) then inr 1705276800
  else inl (ErrorString ("cannot parse " +:+ s)).

Definition Format (t : Z) : string :=
  if bool_decide (t = 1704067200) then t0
  else if bool_decide (t = 1704672000) then t1
  else if bool_decide (t = 1705276800) then t2
  else pretty t.

Fixpoint split (fuel : nat) (step start end_ : Z) : list (Z * Z) :=
  match fuel with
  | O => []
  | S fuel =>
      if bool_decide (end_ ≤ start + step) then [(start, end_)]
      else (start, start + step) :: split fuel step (start + step) end_
  end.

Definition SplitDateRange (start end_ : Z) (chunk : string) (reverse : bool)
    : error + list (Z * Z) :=
  if bool_decide (end_ < start) then
    inl (ErrorString "start time cannot be after end time")
  else if bool_decide (chunk = stepper.StepWeek) then
    inr (split 64 604800 start end_)
  else if bool_decide (chunk = stepper.StepMonth) then
    inr (split 64 2592000 start end_)
  else inl (ErrorString ("failed to parse step value " +:+ chunk)).

Definition blank : Ascii.ascii := Ascii.ascii_of_nat 32.
Definition bang : Ascii.ascii := Ascii.ascii_of_nat 33.

Fixpoint has_blank (s : string) : bool :=
  match s with
  | EmptyString => false
  | String a s => bool_decide (a = blank) || has_blank s
  end.

Definition Parse (url : string) : error + gmap string (list string) :=
  if has_blank url then inl (ErrorString "invalid character in host name")
  else inr ∅.

Definition Quote (s : string) : string :=
  String (Ascii.ascii_of_nat 34) (s +:+ String (Ascii.ascii_of_nat 34) EmptyString).

(** Basic authentication with a fixed token. *)
Definition SetHeaders (token : string) (h : gmap string (list string))
    (primary : bool) : gmap string (list string) :=
  if primary then Set_ "Authorization" token h else h.

(** The decoders read a body whose text is a comma-free list of names
    separated by blanks; a body starting with an exclamation mark is
    malformed. *)
Fixpoint words (acc : string) (s : string) : list string :=
  match s with
  | EmptyString => if bool_decide (acc = EmptyString) then [] else [acc]
  | String a s =>
      if bool_decide (a = blank)
      then (if bool_decide (acc = EmptyString) then [] else [acc]) ++ words EmptyString s
      else words (acc +:+ String a EmptyString) s
  end.

Definition malformed (b : Body) : bool :=
  match body_data b with
  | String a _ => bool_decide (a = bang)
  | EmptyString => true
  end.

Definition DecodeTenants (b : Body) : error + list string :=
  match body_read_err b with
  | Some err => inl err
  | None =>
      if malformed b then inl (ErrorString "invalid character looking for beginning of value")
      else inr (words EmptyString (body_data b))
  end.

Definition DecodeResponse (b : Body) : error + Response :=
  match DecodeTenants b with
  | inl err => inl err
  | inr names => inr (mkResponse "success" names)
  end.

#[export] Instance packages : Packages := {|
  Time := Z;
  utils_GetTime := GetTime;
  stepper_SplitDateRange := SplitDateRange;
  time_Format_RFC3339 := Format;
  url_Parse := Parse;
  strconv_Quote := Quote;
  auth_Config := string;
  auth_SetHeaders := SetHeaders;
  json_Decode_Response := DecodeResponse;
  json_Decode_Tenants := DecodeTenants;
|}.

Definition ok_body (data : string) : Body := mkBody data None None.

(** A server that answers the first request it sees with 500 and every
    later one with 200 and two names. *)
Definition flaky (t : list (io string)) (req : Request) : error + HTTPResponse :=
  match sent t with
  | [] => inr (mkHTTPResponse 500 (ok_body "overloaded"))
  | _ => inr (mkHTTPResponse 200 (ok_body "up node_load1"))
  end.

(** A server that answers every request with 200 and one name. *)
Definition steady (t : list (io string)) (req : Request) : error + HTTPResponse :=
  inr (mkHTTPResponse 200 (ok_body "up")).

(** A server that answers the first request it sees with one name and
    every later one with two other names. *)
Definition varied (t : list (io string)) (req : Request) : error + HTTPResponse :=
  match sent t with
  | [] => inr (mkHTTPResponse 200 (ok_body "up"))
  | _ => inr (mkHTTPResponse 200 (ok_body "node_load1 node_cpu"))
  end.

(** A server that answers the first request it sees with 500 and every
    later one with 503. *)
Definition failing (t : list (io string)) (req : Request) : error + HTTPResponse :=
  match sent t with
  | [] => inr (mkHTTPResponse 500 (ok_body "overloaded"))
  | _ => inr (mkHTTPResponse 503 (ok_body "unavailable"))
  end.


(** A server that is down. *)
Definition down (t : list (io string)) (req : Request) : error + HTTPResponse :=
  inl (ErrorString "connection refused").

Definition client (srv : list (io string) → Request → error + HTTPResponse) : Client :=
  mkClient None "http://vm:8428" [] srv.

(** The same client with a bearer token. *)
Definition secure (srv : list (io string) → Request → error + HTTPResponse) : Client :=
  mkClient (Some "Bearer s3cr3t") "http://vm:8428" [] srv.

(** A destination that accepts every import. *)
Definition accepting (t : list (io string)) (req : Request) : error + HTTPResponse :=
  inr (mkHTTPResponse 204 (ok_body EmptyString)).

Definition filter : Filter := mkFilter "up" t0 t2 "day".

Definition caller : Context := CallerCtx "main".


Definition ranges : list (Z * Z) :=
  [(1704067200, 1704672000); (1704672000, 1705276800)].

(** A client whose address does not parse. *)
Definition broken (srv : list (io string) → Request → error + HTTPResponse) : Client :=
  mkClient None "http://vm 8428" [] srv.

(** A splitter that, like the first, cuts by the step, but yields no range
    at all for an empty interval. *)
Definition SplitDateRange_strict (start end_ : Z) (chunk : string) (reverse : bool)
    : error + list (Z * Z) :=
  if bool_decide (start = end_) then inr []
  else SplitDateRange start end_ chunk reverse.

Definition strict : Packages := {|
  Time := Z;
  utils_GetTime := GetTime;
  stepper_SplitDateRange := SplitDateRange_strict;
  time_Format_RFC3339 := Format;
  url_Parse := Parse;
  strconv_Quote := Quote;
  auth_Config := string;
  auth_SetHeaders := SetHeaders;
  json_Decode_Response := DecodeResponse;
  json_Decode_Tenants := DecodeTenants;
|}.

(** A client for that world; its server answers every request with 200
    and one name. *)
Definition strict_client : @Client strict :=
  @mkClient strict None "http://vm:8428" []
    (λ _ _, inr (mkHTTPResponse 200 (ok_body "up"))).

(** A filter over an empty interval. *)
Definition instant : Filter := mkFilter "up" t0 t0 "day".

Definition import_url : string := "http://vm:8428/api/v1/import/native".
Definition export_url : string := "http://vm:8428/api/v1/export/native".
Definition payload : Body := ok_body "native block".

End demo.

(** * Properties *)

(** ** Strings *)

Lemma string_app_nil_r (s : string) : s +:+ "" = s.
Proof. induction s as [|a s IH]; [done|]. unfold String.app in *; simpl. by rewrite IH. Qed.

Lemma string_app_assoc (a b c : string) : (a +:+ b) +:+ c = a +:+ b +:+ c.
Proof.
  induction a as [|x a IH]; [done|].
  unfold String.app in *; simpl. by rewrite IH.
Qed.

Lemma contains_suffix (p s : string) : contains (p +:+ s) s.
Proof. exists p, "". by rewrite string_app_nil_r. Qed.

Lemma contains_prefix (s q : string) : contains (s +:+ q) s.
Proof. by exists "", q. Qed.

Lemma contains_refl (s : string) : contains s s.
Proof. exists "", "". by rewrite string_app_nil_r. Qed.

Lemma contains_app_r (p t s : string) : contains t s → contains (p +:+ t) s.
Proof.
  intros (pre & post & ->). exists (p +:+ pre), post.
  by rewrite string_app_assoc.
Qed.

Lemma contains_app_l (t q s : string) : contains t s → contains (t +:+ q) s.
Proof.
  intros (pre & post & ->). exists pre, (post +:+ q).
  by rewrite !string_app_assoc.
Qed.

Section properties.
Context `{Packages}.

(** ** Traces *)

Lemma sent_app (a b : list (io auth_Config)) : sent (a ++ b) = sent a ++ sent b.
Proof. apply omap_app. Qed.
Lemma hooked_app (a b : list (io auth_Config)) : hooked (a ++ b) = hooked a ++ hooked b.
Proof. apply omap_app. Qed.
Lemma drained_app (a b : list (io auth_Config)) : drained (a ++ b) = drained a ++ drained b.
Proof. apply omap_app. Qed.
Lemma decoded_app (a b : list (io auth_Config)) : decoded (a ++ b) = decoded a ++ decoded b.
Proof. apply omap_app. Qed.
Lemma closed_app (a b : list (io auth_Config)) : closed (a ++ b) = closed a ++ closed b.
Proof. apply omap_app. Qed.
Lemma logged_app (a b : list (io auth_Config)) : logged (a ++ b) = logged a ++ logged b.
Proof. apply omap_app. Qed.

Ltac run_m :=
  unfold mbind, mret, M_bind, M_ret, SetHeaders, HTTPClient_Do, io_ReadAll_,
    Close, Decode, log_Printf, emit; simpl.

Lemma hooked_hook_calls (c : Client) (req : Request) :
  hooked (hook_calls c req) =
    match AuthCfg c with Some cfg => [(cfg, req, true)] | None => [] end.
Proof. unfold hook_calls. by destruct (AuthCfg c). Qed.
Lemma sent_hook_calls (c : Client) (req : Request) : sent (hook_calls c req) = [].
Proof. unfold hook_calls. by destruct (AuthCfg c). Qed.
Lemma drained_hook_calls (c : Client) (req : Request) : drained (hook_calls c req) = [].
Proof. unfold hook_calls. by destruct (AuthCfg c). Qed.
Lemma decoded_hook_calls (c : Client) (req : Request) : decoded (hook_calls c req) = [].
Proof. unfold hook_calls. by destruct (AuthCfg c). Qed.
Lemma closed_hook_calls (c : Client) (req : Request) : closed (hook_calls c req) = [].
Proof. unfold hook_calls. by destruct (AuthCfg c). Qed.
Lemma logged_hook_calls (c : Client) (req : Request) : logged (hook_calls c req) = [].
Proof. unfold hook_calls. by destruct (AuthCfg c). Qed.

Ltac trace_simpl :=
  rewrite ?sent_app, ?hooked_app, ?drained_app, ?decoded_app, ?closed_app,
    ?logged_app;
  rewrite ?sent_hook_calls, ?hooked_hook_calls, ?drained_hook_calls,
    ?decoded_hook_calls, ?closed_hook_calls, ?logged_hook_calls;
  simpl; rewrite ?app_nil_r.

(** The effects of [do], by the outcome of the round trip. *)
Lemma do_eq (c : Client) (req : Request) (expSC : Z) (t : list (io auth_Config)) :
  let req' := sent_request c req in
  let t1 := t ++ hook_calls c req in
  do c req expSC t =
    match HTTPClient c t1 req' with
    | inl cause =>
        (inl (Errorf_w "unexpected error when performing request: " cause),
         t1 ++ [io_Do req'])
    | inr resp =>
        if bool_decide (StatusCode resp ≠ expSC) then
          (inl (match body_read_err (resp_Body resp) with
                | Some err =>
                    Errorf_s ("failed to read response body for status code "
                                +:+ pretty (StatusCode resp) +:+ ": ") err
                | None =>
                    ErrorString ("unexpected response code "
                                   +:+ pretty (StatusCode resp) +:+ ": "
                                   +:+ body_data (resp_Body resp))
                end),
           t1 ++ [io_Do req'; io_ReadAll (resp_Body resp)])
        else (inr resp, t1 ++ [io_Do req'])
    end.
Proof.
  unfold do, sent_request, hook_calls.
  destruct (AuthCfg c) as [cfg|]; run_m; rewrite ?app_nil_r.
  all: destruct (HTTPClient c _ _) as [cause|resp]; [done|].
  all: case_bool_decide; [|done].
  all: destruct (body_read_err _); by rewrite <- ?app_assoc.
Qed.


(** ** The request executor *)

(** C6: [do] calls the header hook exactly when a credential configuration
    is present (once, flagged as the primary call, before sending), sends
    exactly once, and then: a transport failure gives an error that wraps
    the cause and no response, and no body is read; a status other than
    the expected one makes it read the body to the end and gives an error
    whose message carries the status code and, when the read succeeded,
    the body text, and no response; the expected status gives the response,
    its body neither read nor closed, and no error. *)
Theorem do_contract (c : Client) (req : Request) (expSC : Z)
    (t : list (io auth_Config)) :
  let r := do c req expSC t in
  let req' := sent_request c req in
  let out := HTTPClient c (t ++ hook_calls c req) req' in
  hooked r.2 = hooked t ++ match AuthCfg c with
                           | Some cfg => [(cfg, req, true)]
                           | None => []
                           end
  ∧ (AuthCfg c = None → req' = req)
  ∧ (∀ cfg, AuthCfg c = Some cfg →
       req' = with_header req (auth_SetHeaders cfg (req_header req) true))
  ∧ sent r.2 = sent t ++ [req']
  ∧ (∃ rest, r.2 = t ++ hook_calls c req ++ io_Do req' :: rest)
  ∧ (∀ cause, out = inl cause →
       ∃ err, r.1 = inl err ∧ Unwrap err = Some cause
              ∧ drained r.2 = drained t ∧ closed r.2 = closed t)
  ∧ (∀ resp, out = inr resp → StatusCode resp ≠ expSC →
       ∃ err, r.1 = inl err
              ∧ drained r.2 = drained t ++ [resp_Body resp]
              ∧ contains (Error err) (pretty (StatusCode resp))
              ∧ (body_read_err (resp_Body resp) = None →
                   contains (Error err) (body_data (resp_Body resp))))
  ∧ (∀ resp, out = inr resp → StatusCode resp = expSC →
       r.1 = inr resp ∧ drained r.2 = drained t ∧ closed r.2 = closed t).
Proof.
  intros r req' out. subst r. rewrite do_eq. fold req' out.
  split_and!.
  - by destruct out as [cause|resp]; [|case_bool_decide]; simpl; trace_simpl.
  - unfold req', sent_request. by intros ->.
  - unfold req', sent_request. by intros cfg ->.
  - by destruct out as [cause|resp]; [|case_bool_decide]; simpl; trace_simpl.
  - destruct out as [cause|resp]; [|case_bool_decide]; simpl;
      rewrite <- app_assoc; eauto.
  - intros cause ->. eexists. split; [done|]. simpl. by trace_simpl.
  - intros resp -> Hne. rewrite bool_decide_eq_true_2 by done.
    eexists. split; [done|]. simpl. trace_simpl. split; [done|].
    destruct (body_read_err (resp_Body resp)) as [e|]; simpl.
    + split; [|done].
      apply contains_app_l, contains_app_r, contains_prefix.
    + split.
      * apply contains_app_r, contains_prefix.
      * intros _. do 3 apply contains_app_r. apply contains_refl.
  - intros resp -> Heq. rewrite bool_decide_eq_false_2 by (by intros ?).
    simpl. by trace_simpl.
Qed.

(** ** The stream importer *)

(** C7: when the destination answers an import with a status other than
    204, [ImportPipe] returns an error whose message contains the body text
    (provided the body could be read) and closes nothing; when it answers
    204, [ImportPipe] closes the response body and returns an error exactly
    when the close fails. *)
Theorem ImportPipe_contract (c : Client) (ctx : Context) (dstURL : string)
    (pr : Body) (t : list (io auth_Config)) (req : Request) (resp : HTTPResponse) :
  NewRequestWithContext ctx MethodPost dstURL (Some pr) = inr req →
  HTTPClient c (t ++ hook_calls c req) (sent_request c req) = inr resp →
  let r := ImportPipe c ctx dstURL pr t in
  sent r.2 = sent t ++ [sent_request c req]
  ∧ (StatusCode resp ≠ StatusNoContent →
       closed r.2 = closed t
       ∧ ∃ err, r.1 = Some err
                ∧ (body_read_err (resp_Body resp) = None →
                     contains (Error err) (body_data (resp_Body resp))))
  ∧ (StatusCode resp = StatusNoContent →
       closed r.2 = closed t ++ [resp_Body resp]
       ∧ (is_Some r.1 ↔ is_Some (body_close_err (resp_Body resp)))
       ∧ (body_close_err (resp_Body resp) = None → r.1 = None)).
Proof.
  intros Hreq Hout r. subst r. unfold ImportPipe. rewrite Hreq.
  run_m. rewrite do_eq, Hout. split_and!.
  - case_bool_decide; simpl; [by trace_simpl|].
    destruct (body_close_err (resp_Body resp)); simpl; by trace_simpl.
  - intros Hne. rewrite bool_decide_eq_true_2 by done. simpl. trace_simpl.
    split; [done|]. eexists. split; [done|]. intros ->. simpl.
    do 4 apply contains_app_r. apply contains_refl.
  - intros Heq. rewrite bool_decide_eq_false_2 by (by intros ?). simpl.
    destruct (body_close_err (resp_Body resp)) as [e|]; simpl; trace_simpl.
    + split_and!; [done| |done]. split; eauto.
    + split_and!; [done| |done]. split; intros [? ?]; done.
Qed.

(** ** The stream exporter *)

(** C8: when the URL parses (with query component [q0]), [ExportPipe] sends
    exactly one request; the request it hands to [do] is a GET to that URL
    whose query has match[] set to the filter's match, start (resp. end) set
    to the filter's timeStart (resp. timeEnd) when that is non-empty and
    left as in [q0] otherwise (so, for a URL that brings no start or end of
    its own, present exactly when non-empty), and whose Accept-Encoding
    header is identity whatever the filter; the header hook changes neither
    method, URL nor query. *)
Theorem ExportPipe_request (c : Client) (ctx : Context) (url : string)
    (f : Filter) (t : list (io auth_Config)) (q0 : gmap string (list string)) :
  url_Parse url = inr q0 →
  ∃ req : Request,
    sent (ExportPipe c ctx url f t).2 = sent t ++ [sent_request c req]
    ∧ req_method req = MethodGet
    ∧ req_url req = url
    ∧ req_query req !! "match[]" = Some [Match f]
    ∧ (TimeStart f ≠ "" → req_query req !! "start" = Some [TimeStart f])
    ∧ (TimeStart f = "" → req_query req !! "start" = q0 !! "start")
    ∧ (TimeEnd f ≠ "" → req_query req !! "end" = Some [TimeEnd f])
    ∧ (TimeEnd f = "" → req_query req !! "end" = q0 !! "end")
    ∧ (q0 !! "start" = None →
         (is_Some (req_query req !! "start") ↔ TimeStart f ≠ ""))
    ∧ (q0 !! "end" = None →
         (is_Some (req_query req !! "end") ↔ TimeEnd f ≠ ""))
    ∧ req_header req !! "Accept-Encoding" = Some ["identity"]
    ∧ req_method (sent_request c req) = MethodGet
    ∧ req_url (sent_request c req) = url
    ∧ req_query (sent_request c req) = req_query req
    ∧ (AuthCfg c = None → sent_request c req = req).
Proof.
  intros Hq. unfold ExportPipe, NewRequestWithContext. rewrite Hq.
  eexists. split.
  { run_m. rewrite do_eq.
    destruct (HTTPClient c _ _) as [cause|resp]; [|case_bool_decide];
      simpl; by trace_simpl. }
  unfold sent_request, Set_. simpl.
  split_and!; try done.
  all: try (by destruct (AuthCfg c)).
  all: try (by intros ->).
  all: intros; repeat case_bool_decide; simplify_map_eq; try done.
  all: split; (try done); (try by eauto); intros [? ?]; congruence.
Qed.

(** ** The tenant discoverer *)

(** C9: when the tenants URL parses (with query component [q0]),
    [GetSourceTenants] sends exactly one request, a GET to
    [Addr/admin/tenants] whose start (resp. end) is the filter's timeStart
    (resp. timeEnd) itself when that is non-empty and is left as in [q0]
    otherwise; a transport failure, an unexpected status, a decode failure
    and a close failure each give the nil list and an error; otherwise the
    decoded list is returned with no error. *)
Theorem GetSourceTenants_contract (c : Client) (ctx : Context) (f : Filter)
    (t : list (io auth_Config)) (q0 : gmap string (list string)) :
  url_Parse (Addr c +:+ "/" +:+ nativeTenantsAddr) = inr q0 →
  let r := GetSourceTenants c ctx f t in
  ∃ req : Request,
    let out := HTTPClient c (t ++ hook_calls c req) (sent_request c req) in
    sent r.2 = sent t ++ [sent_request c req]
    ∧ req_method req = MethodGet
    ∧ req_url req = Addr c +:+ "/admin/tenants"
    ∧ req_method (sent_request c req) = MethodGet
    ∧ req_url (sent_request c req) = Addr c +:+ "/admin/tenants"
    ∧ req_query (sent_request c req) = req_query req
    ∧ (TimeStart f ≠ "" → req_query req !! "start" = Some [TimeStart f])
    ∧ (TimeStart f = "" → req_query req !! "start" = q0 !! "start")
    ∧ (TimeEnd f ≠ "" → req_query req !! "end" = Some [TimeEnd f])
    ∧ (TimeEnd f = "" → req_query req !! "end" = q0 !! "end")
    ∧ (∀ cause, out = inl cause → r.1.1 = [] ∧ is_Some r.1.2)
    ∧ (∀ resp, out = inr resp → StatusCode resp ≠ StatusOK →
         r.1.1 = [] ∧ is_Some r.1.2)
    ∧ (∀ resp err, out = inr resp → StatusCode resp = StatusOK →
         json_Decode_Tenants (resp_Body resp) = inl err →
         r.1.1 = [] ∧ is_Some r.1.2)
    ∧ (∀ resp tenants err, out = inr resp → StatusCode resp = StatusOK →
         json_Decode_Tenants (resp_Body resp) = inr tenants →
         body_close_err (resp_Body resp) = Some err →
         r.1.1 = [] ∧ is_Some r.1.2)
    ∧ (∀ resp tenants, out = inr resp → StatusCode resp = StatusOK →
         json_Decode_Tenants (resp_Body resp) = inr tenants →
         body_close_err (resp_Body resp) = None →
         r.1 = (tenants, None)).
Proof.
  intros Hq r. subst r. unfold GetSourceTenants, NewRequestWithContext.
  rewrite Hq.
  match goal with |- context [do c ?r _] => exists r; set (req := r) in * end.
  cbv zeta. run_m. rewrite do_eq.
  set (out := HTTPClient c (t ++ hook_calls c req) (sent_request c req)).
  split_and!.
  - destruct out as [cause|resp]; [|case_bool_decide]; simpl; [by trace_simpl..|].
    destruct (json_Decode_Tenants _); simpl; [by trace_simpl|].
    destruct (body_close_err _); simpl; by trace_simpl.
  - done.
  - done.
  - unfold sent_request. by destruct (AuthCfg c).
  - unfold sent_request. by destruct (AuthCfg c).
  - unfold sent_request. by destruct (AuthCfg c).
  - intros Hne. subst req. unfold Set_. simpl.
    repeat case_bool_decide; by simplify_map_eq.
  - intros Hne. subst req. unfold Set_. simpl.
    repeat case_bool_decide; by simplify_map_eq.
  - intros Hne. subst req. unfold Set_. simpl.
    repeat case_bool_decide; by simplify_map_eq.
  - intros Hne. subst req. unfold Set_. simpl.
    repeat case_bool_decide; by simplify_map_eq.
  - intros cause ->. simpl. eauto.
  - intros resp -> Hne. rewrite bool_decide_eq_true_2 by done. simpl. eauto.
  - intros resp err -> Heq Hdec.
    rewrite bool_decide_eq_false_2 by (by intros ?). simpl.
    rewrite Hdec. simpl. eauto.
  - intros resp tenants err -> Heq Hdec Hcl.
    rewrite bool_decide_eq_false_2 by (by intros ?). simpl.
    rewrite Hdec. simpl. rewrite Hcl. simpl. eauto.
  - intros resp tenants -> Heq Hdec Hcl.
    rewrite bool_decide_eq_false_2 by (by intros ?). simpl.
    rewrite Hdec. simpl. by rewrite Hcl.
Qed.

(** ** The explorer: one task *)

(** What one task's request phase does to the trace, and what a success
    means. *)
Lemma exploreRequest_trace (c : Client) (ctx : Context) (f : Filter)
    (tenantID : string) (times : Time * Time) (t : list (io auth_Config)) :
  let r := exploreRequest c ctx f tenantID times t in
  sent r.2 = sent t ++ issued c ctx f tenantID times
  ∧ logged r.2 = logged t.
Proof.
  unfold exploreRequest, issued.
  destruct (NewRequestWithContext _ _ _ _) as [e|req]; simpl.
  { by rewrite app_nil_r. }
  run_m. rewrite do_eq.
  destruct (HTTPClient c _ _) as [cause|resp]; [|case_bool_decide]; simpl;
    [by trace_simpl..|].
  destruct (json_Decode_Response _); simpl; [by trace_simpl|].
  destruct (body_close_err _); simpl; by trace_simpl.
Qed.

Lemma exploreRequest_ok (c : Client) (ctx : Context) (f : Filter)
    (tenantID : string) (times : Time * Time) (t : list (io auth_Config))
    (names : list string) :
  (exploreRequest c ctx f tenantID times t).1 = inr names →
  ∃ req resp response,
    NewRequestWithContext ctx MethodGet (exploreURL c tenantID) None = inr req
    ∧ HTTPClient c (t ++ hook_calls c (exploreParams f times req))
        (sent_request c (exploreParams f times req)) = inr resp
    ∧ StatusCode resp = StatusOK
    ∧ json_Decode_Response (resp_Body resp) = inr response
    ∧ body_close_err (resp_Body resp) = None
    ∧ names = MetricNames response.
Proof.
  unfold exploreRequest.
  destruct (NewRequestWithContext _ _ _ _) as [e|req]; simpl; [done|].
  run_m. rewrite do_eq.
  destruct (HTTPClient c _ _) as [cause|resp] eqn:Hout; [done|].
  case_bool_decide as Hsc; simpl; [done|].
  destruct (json_Decode_Response _) as [e|response] eqn:Hdec; simpl; [done|].
  destruct (body_close_err _) eqn:Hcl; simpl; [done|].
  intros [= <-]. exists req, resp, response. split_and!; try done.
Qed.

(** ** The explorer: steps *)

Section steps.
Context (c : Client) (ctx : Context) (f : Filter) (tenantID : string).

Lemma tasks_group_fail err σ : tasks (group_fail err σ) = tasks σ.
Proof. unfold group_fail. by destruct (g_err σ). Qed.
Lemma metricNames_group_fail err σ : metricNames (group_fail err σ) = metricNames σ.
Proof. unfold group_fail. by destruct (g_err σ). Qed.
Lemma trace_group_fail err σ : trace (group_fail err σ) = trace σ.
Proof. unfold group_fail. by destruct (g_err σ). Qed.
Lemma parent_err_group_fail err σ : parent_err (group_fail err σ) = parent_err σ.
Proof. unfold group_fail. by destruct (g_err σ). Qed.
Lemma g_err_group_fail err σ :
  g_err (group_fail err σ) = Some (default err (g_err σ)).
Proof. unfold group_fail. by destruct (g_err σ) eqn:E. Qed.
Lemma ctx_err_group_fail err σ :
  ctx_err (group_fail err σ) =
    match g_err σ, ctx_err σ with
    | None, None => Some context_Canceled
    | _, e => e
    end.
Proof.
  unfold group_fail. destruct (g_err σ) eqn:E; [done|].
  simpl. by destruct (ctx_err σ).
Qed.

Lemma step_inv σ e σ' :
  step c ctx f tenantID σ e = Some σ' → step_spec c ctx f tenantID σ e σ'.
Proof.
  unfold step. destruct e as [err|i|i|i].
  - destruct (parent_err σ) eqn:Hp; [done|]. intros [= <-]. by constructor.
  - destruct (tasks σ !! i) as [[times| | | |]|] eqn:Hi; try done.
    destruct (exploreRequest _ _ _ _ _ _) as [[err|names] t] eqn:Hr;
      intros [= <-].
    + replace t with (exploreRequest c (GroupCtx ctx) f tenantID times (trace σ)).2
        by (by rewrite Hr).
      apply step_Run_fail; [done|]. by rewrite Hr.
    + replace t with (exploreRequest c (GroupCtx ctx) f tenantID times (trace σ)).2
        by (by rewrite Hr).
      apply step_Run_ok; [done|]. by rewrite Hr.
  - destruct (tasks σ !! i) as [[| names | | |]|] eqn:Hi; try done.
    intros [= <-]. by constructor.
  - destruct (tasks σ !! i) as [[| names | | |]|] eqn:Hi; try done.
    destruct (ctx_err σ) as [err|] eqn:Hc; [|done].
    intros [= <-]. pose proof (step_CtxDone c ctx f tenantID σ i names err Hi Hc) as Hs.
    by rewrite Hc in Hs.
Qed.

Lemma step_complete σ e σ' :
  step_spec c ctx f tenantID σ e σ' → step c ctx f tenantID σ e = Some σ'.
Proof.
  destruct 1 as [err Hp|i times err Hi Hr|i times names Hi Hr|i names Hi
                |i names err Hi Hc]; unfold step.
  - by rewrite Hp.
  - rewrite Hi.
    destruct (exploreRequest _ _ _ _ _ _) as [r t]; simpl in *. by subst.
  - rewrite Hi.
    destruct (exploreRequest _ _ _ _ _ _) as [r t]; simpl in *. by subst.
  - by rewrite Hi.
  - by rewrite Hi, Hc.
Qed.

(** A property kept by every step holds after every schedule. *)
Lemma run_invariant (P : state → Prop) :
  (∀ σ e σ', P σ → step_spec c ctx f tenantID σ e σ' → P σ') →
  ∀ sched σ σ', P σ → run c ctx f tenantID σ sched = Some σ' → P σ'.
Proof.
  intros Hstep. induction sched as [|e sched IH]; intros σ σ' HP; simpl.
  - by intros [= <-].
  - destruct (step c ctx f tenantID σ e) as [σ1|] eqn:He; [|done].
    apply IH. eapply Hstep; [done|]. by apply step_inv.
Qed.

Lemma run_app (σ : state) (s1 s2 : list event) :
  run c ctx f tenantID σ (s1 ++ s2) =
    σ' ← run c ctx f tenantID σ s1; run c ctx f tenantID σ' s2.
Proof.
  revert σ. induction s1 as [|e s1 IH]; intros σ; simpl; [done|].
  destruct (step c ctx f tenantID σ e); simpl; [apply IH|done].
Qed.

End steps.

(** ** The explorer: cancellation *)

Section cancellation.
Context (c : Client) (ctx : Context) (f : Filter) (tenantID : string).

Lemma some_task_insert_here (P : task → Prop) ts i t0 t1 pe ce ge mn tr :
  ts !! i = Some t0 → P t1 →
  some_task P (mkState (<[i := t1]> ts) pe ce ge mn tr).
Proof.
  intros Hi HP. exists i, t1. split; [|done]. simpl.
  apply list_lookup_insert_eq. by eapply lookup_lt_Some.
Qed.

Lemma some_task_insert_keep (P : task → Prop) σ i t0 t1 pe ce ge mn tr :
  tasks σ !! i = Some t0 → ¬ P t0 →
  some_task P σ → some_task P (mkState (<[i := t1]> (tasks σ)) pe ce ge mn tr).
Proof.
  intros Hi HP (j & t & Hj & Ht). exists j, t. split; [|done]. simpl.
  rewrite list_lookup_insert_ne; [done|]. intros ->. congruence.
Qed.

Lemma some_task_insert_back (P : task → Prop) σ i t1 pe ce ge mn tr :
  ¬ P t1 →
  some_task P (mkState (<[i := t1]> (tasks σ)) pe ce ge mn tr) → some_task P σ.
Proof.
  intros HP (j & t & Hj & Ht). simpl in Hj.
  apply list_lookup_insert_Some in Hj as [(-> & <- & _)|[Hne Hj]]; [done|].
  by exists j, t.
Qed.

Lemma some_task_group_fail (P : task → Prop) err σ :
  some_task P (group_fail err σ) ↔ some_task P σ.
Proof. unfold some_task. by rewrite tasks_group_fail. Qed.

Lemma some_task_frame (P : task → Prop) σ pe ce ge mn tr :
  some_task P (mkState (tasks σ) pe ce ge mn tr) ↔ some_task P σ.
Proof. done. Qed.

Lemma cancel_inv_step σ e σ' :
  cancel_inv σ → step_spec c ctx f tenantID σ e σ' → cancel_inv σ'.
Proof.
  intros (Hg & Hc & Ha) Hs.
  assert (Hns : ∀ times, ¬ has_err (Spawned times)) by (intros ? [? ?]; done).
  assert (Hno : ∀ names, ¬ has_err (Offering names)) by (intros ? [? ?]; done).
  assert (Hnd : ∀ names, ¬ has_err (Delivered names)) by (intros ? [? ?]; done).
  destruct Hs as [err Hp|i times err Hi Hr|i times names Hi Hr|i names Hi
                 |i names err Hi Hce].
  - (* the caller cancels *)
    split_and!; simpl.
    + done.
    + split; [eauto|]. intros _. destruct (ctx_err σ); eauto.
    + eauto.
  - (* a request fails *)
    unfold cancel_inv.
    rewrite !some_task_group_fail, g_err_group_fail, ctx_err_group_fail,
      parent_err_group_fail.
    assert (some_task is_Failed
              (mkState (<[i := Failed err]> (tasks σ)) (parent_err σ) (ctx_err σ)
                 (g_err σ) (metricNames σ)
                 (exploreRequest c (GroupCtx ctx) f tenantID times (trace σ)).2)).
    { eapply some_task_insert_here; [done|]. by eexists. }
    split_and!; simpl.
    + split; [|eauto]. intros _.
      eapply some_task_insert_here; [done|]. by eexists.
    + split; [eauto|]. intros _.
      destruct (g_err σ) eqn:Eg; [|destruct (ctx_err σ); eauto].
      apply Hc. eauto.
    + eauto.
  - (* a request succeeds *)
    split_and!; simpl.
    + rewrite Hg. split.
      * by eapply some_task_insert_keep.
      * by apply some_task_insert_back.
    + done.
    + intros Hab. apply some_task_insert_back in Hab; [|by intros (? & ? & ?)].
      destruct (Ha Hab) as [?|Hf]; [by left|right].
      eapply some_task_insert_keep; [done| |done]. by intros [? ?].
  - (* a delivery *)
    split_and!; simpl.
    + rewrite Hg. split.
      * by eapply some_task_insert_keep.
      * by apply some_task_insert_back.
    + done.
    + intros Hab. apply some_task_insert_back in Hab; [|by intros (? & ? & ?)].
      destruct (Ha Hab) as [?|Hf]; [by left|right].
      eapply some_task_insert_keep; [done| |done]. by intros [? ?].
  - (* a delivery is given up *)
    unfold cancel_inv.
    rewrite !some_task_group_fail, g_err_group_fail, ctx_err_group_fail,
      parent_err_group_fail.
    split_and!; simpl.
    + split; [|eauto]. intros _.
      eapply some_task_insert_here; [done|]. by eexists.
    + split; [eauto|]. intros _. rewrite Hce. by destruct (g_err σ).
    + intros _.
      assert (is_Some (parent_err σ) ∨ some_task is_Failed σ) as [?|Hf].
      { destruct (proj1 Hc) as [?|Hge]; [by rewrite Hce|by left|].
        apply Hg in Hge as (j & t & Hj & Ht).
        destruct t as [| | |e|ns e]; try (by destruct Ht).
        - right. exists j, (Failed e). split; [done|by eexists].
        - apply Ha. exists j, (Abandoned ns e). split; [done|by do 2 eexists]. }
      { by left. }
      right. eapply some_task_insert_keep; [done| |done]. by intros [? ?].
Qed.

Lemma cancel_inv_init (ranges : list (Time * Time)) (t : list (io auth_Config)) :
  cancel_inv (exploreInit ranges t).
Proof.
  assert (Hn : ∀ P : task → Prop, (∀ times, ¬ P (Spawned times)) →
               ¬ some_task P (exploreInit ranges t)).
  { intros P HP (i & tk & Hi & Ht). simpl in Hi.
    apply list_lookup_fmap_Some in Hi as (times & -> & _). by eapply HP. }
  split_and!; simpl.
  - split; [by intros [? ?]|]. intros Hs. exfalso. revert Hs. apply Hn.
    by intros ? [? ?].
  - split; [by intros [? ?]|]. by intros [[? ?]|[? ?]].
  - intros Hs. exfalso. revert Hs. apply Hn. by intros ? (? & ? & ?).
Qed.

Lemma cancel_inv_run (ranges : list (Time * Time)) (t : list (io auth_Config))
    (sched : list event) (σ : state) :
  run c ctx f tenantID (exploreInit ranges t) sched = Some σ → cancel_inv σ.
Proof.
  apply run_invariant; [apply cancel_inv_step|apply cancel_inv_init].
Qed.

End cancellation.

(** ** The explorer: deliveries *)

Section deliveries.
Context (c : Client) (ctx : Context) (f : Filter) (tenantID : string).

Lemma block_insert_ne (ts : list task) (i j : nat) (t1 : task) :
  i ≠ j → block (<[i := t1]> ts) j = block ts j.
Proof. intros Hne. unfold block. by rewrite list_lookup_insert_ne. Qed.

Lemma block_insert_eq (ts : list task) (i : nat) (t0 : task) (names : list string) :
  ts !! i = Some t0 → block (<[i := Delivered names]> ts) i = names.
Proof.
  intros Hi. unfold block. rewrite list_lookup_insert_eq; [done|].
  by eapply lookup_lt_Some.
Qed.

(** Replacing a task that has not delivered by one that has not delivered
    changes neither the order nor the blocks. *)
Lemma deliver_inv_insert σ i t0 t1 pe ce ge tr :
  tasks σ !! i = Some t0 → delivered t0 = None → delivered t1 = None →
  deliver_inv σ →
  deliver_inv (mkState (<[i := t1]> (tasks σ)) pe ce ge (metricNames σ) tr).
Proof.
  intros Hi H0 H1 (order & Hnd & Hin & Hmn).
  assert (Hni : i ∉ order).
  { intros [ns Hns]%Hin. rewrite Hi in Hns. by simplify_eq. }
  exists order. split_and!; simpl; [done| |].
  - intros j. rewrite Hin. destruct (decide (i = j)) as [<-|Hne].
    + split; intros [ns Hns].
      * rewrite Hi in Hns. by simplify_eq.
      * rewrite list_lookup_insert_eq in Hns by (by eapply lookup_lt_Some).
        by simplify_eq.
    + by rewrite list_lookup_insert_ne.
  - rewrite Hmn. f_equal. apply list_fmap_ext. intros k j Hj.
    rewrite block_insert_ne; [done|]. intros <-.
    apply Hni. by eapply list_elem_of_lookup_2.
Qed.

Lemma deliver_inv_group_fail err σ :
  deliver_inv (group_fail err σ) ↔ deliver_inv σ.
Proof.
  unfold deliver_inv. by rewrite tasks_group_fail, metricNames_group_fail.
Qed.

Lemma deliver_inv_step σ e σ' :
  deliver_inv σ → step_spec c ctx f tenantID σ e σ' → deliver_inv σ'.
Proof.
  intros Hinv Hs.
  destruct Hs as [err Hp|i times err Hi Hr|i times names Hi Hr|i names Hi
                 |i names err Hi Hce].
  - done.
  - apply deliver_inv_group_fail. by eapply deliver_inv_insert.
  - by eapply deliver_inv_insert.
  - destruct Hinv as (order & Hnd & Hin & Hmn).
    assert (Hni : i ∉ order).
    { intros [ns Hns]%Hin. rewrite Hi in Hns. by simplify_eq. }
    exists (order ++ [i]). split_and!; simpl.
    + apply NoDup_app. split_and!; [done| |apply NoDup_singleton].
      intros j Hj ->%list_elem_of_singleton. done.
    + intros j. rewrite elem_of_app, list_elem_of_singleton, Hin.
      destruct (decide (i = j)) as [<-|Hne].
      * split; [|by right]. intros _. exists names.
        apply list_lookup_insert_eq. by eapply lookup_lt_Some.
      * rewrite list_lookup_insert_ne by done.
        split; [|by left]. intros [?|?]; [done|by subst].
    + rewrite fmap_app, concat_app. simpl.
      rewrite (block_insert_eq _ _ _ _ Hi), app_nil_r, Hmn. f_equal. f_equal.
      apply list_fmap_ext. intros k j Hj.
      rewrite block_insert_ne; [done|]. intros <-.
      apply Hni. by eapply list_elem_of_lookup_2.
  - apply deliver_inv_group_fail. by eapply deliver_inv_insert.
Qed.

Lemma deliver_inv_init (ranges : list (Time * Time)) (t : list (io auth_Config)) :
  deliver_inv (exploreInit ranges t).
Proof.
  exists []. split_and!; simpl; [apply NoDup_nil_2| |done].
  intros i. split; [by intros ?%elem_of_nil|]. intros [ns Hns].
  by apply list_lookup_fmap_Some in Hns as (times & ? & _).
Qed.

Lemma deliver_inv_run (ranges : list (Time * Time)) (t : list (io auth_Config))
    (sched : list event) (σ : state) :
  run c ctx f tenantID (exploreInit ranges t) sched = Some σ → deliver_inv σ.
Proof.
  apply run_invariant; [apply deliver_inv_step|apply deliver_inv_init].
Qed.

End deliveries.

(** ** The explorer: requests and responses *)

Section requests.
Context (c : Client) (ctx : Context) (f : Filter) (tenantID : string).

Lemma exploreRequest_extends (cx : Context) (times : Time * Time)
    (t : list (io auth_Config)) :
  ∃ more, (exploreRequest c cx f tenantID times t).2 = t ++ more.
Proof.
  unfold exploreRequest.
  destruct (NewRequestWithContext _ _ _ _) as [e|req]; simpl.
  { exists []. by rewrite app_nil_r. }
  run_m. rewrite do_eq.
  destruct (HTTPClient c _ _) as [cause|resp]; [|case_bool_decide]; simpl;
    rewrite <- ?app_assoc; [by eexists..|].
  destruct (json_Decode_Response _); simpl; rewrite <- ?app_assoc;
    [by eexists|].
  destruct (body_close_err _); simpl; rewrite <- ?app_assoc; by eexists.
Qed.

Lemma request_inv_step ranges t0 σ e σ' :
  request_inv c ctx f tenantID ranges t0 σ →
  step_spec c ctx f tenantID σ e σ' →
  request_inv c ctx f tenantID ranges t0 σ'.
Proof.
  intros (Hsp & Hlen & Hlog & reqs & Hsent & Hreqs) Hs.
  assert (Hkeep : ∀ i t1,
            (∀ times, t1 ≠ Spawned times) →
            ∀ j times0,
              <[i := t1]> (tasks σ) !! j = Some (Spawned times0) →
              ranges !! j = Some times0).
  { intros i t1 Ht1 j times0 Hj.
    apply list_lookup_insert_Some in Hj as [(-> & Heq & _)|[Hne Hj]].
    - by destruct (Ht1 times0).
    - by apply Hsp. }
  destruct Hs as [err Hp|i times err Hi Hr|i times names Hi Hr|i names Hi
                 |i names err Hi Hce]; unfold request_inv;
    rewrite ?tasks_group_fail, ?trace_group_fail; simpl;
    rewrite ?length_insert.
  - split_and!; eauto.
  - destruct (exploreRequest_trace c (GroupCtx ctx) f tenantID times (trace σ))
      as [Hs Hl].
    split_and!; [by apply Hkeep|done|by rewrite Hl|].
    exists (reqs ++ issued c (GroupCtx ctx) f tenantID times). split.
    + by rewrite Hs, Hsent, app_assoc.
    + intros r [Hr'|Hr']%elem_of_app; [by apply Hreqs|].
      exists times. split; [|done]. eapply list_elem_of_lookup_2. by apply Hsp.
  - destruct (exploreRequest_trace c (GroupCtx ctx) f tenantID times (trace σ))
      as [Hs Hl].
    split_and!; [by apply Hkeep|done|by rewrite Hl|].
    exists (reqs ++ issued c (GroupCtx ctx) f tenantID times). split.
    + by rewrite Hs, Hsent, app_assoc.
    + intros r [Hr'|Hr']%elem_of_app; [by apply Hreqs|].
      exists times. split; [|done]. eapply list_elem_of_lookup_2. by apply Hsp.
  - split_and!; [by apply Hkeep|done|done|eauto].
  - split_and!; [by apply Hkeep|done|done|eauto].
Qed.

Lemma request_inv_run (ranges : list (Time * Time)) (t : list (io auth_Config))
    (sched : list event) (σ : state) :
  run c ctx f tenantID (exploreInit ranges t) sched = Some σ →
  request_inv c ctx f tenantID ranges t σ.
Proof.
  apply run_invariant; [apply request_inv_step|].
  split_and!; simpl.
  - intros i times Hi.
    apply list_lookup_fmap_Some in Hi as (times' & [= ->] & Hi). done.
  - by rewrite length_fmap.
  - done.
  - exists []. split; [by rewrite app_nil_r|]. by intros r ?%elem_of_nil.
Qed.

Lemma response_inv_step ranges t0 σ e σ' :
  request_inv c ctx f tenantID ranges t0 σ →
  response_inv c ctx f tenantID ranges σ →
  step_spec c ctx f tenantID σ e σ' →
  response_inv c ctx f tenantID ranges σ'.
Proof.
  intros (Hsp & _) Hinv Hs.
  assert (Hmono : ∀ more i tk ns,
            tasks σ !! i = Some tk → offered tk = Some ns →
            ∃ times t1, ranges !! i = Some times
              ∧ t1 `prefix_of` trace σ ++ more
              ∧ (exploreRequest c (GroupCtx ctx) f tenantID times t1).1 = inr ns).
  { intros more i tk ns Hi Hoff.
    destruct (Hinv i tk ns Hi Hoff) as (times & t1 & ? & Hpre & ?).
    exists times, t1. split_and!; [done| |done].
    by apply prefix_app_r. }
  destruct Hs as [err Hp|i times err Hi Hr|i times names Hi Hr|i names Hi
                 |i names err Hi Hce]; unfold response_inv;
    rewrite ?tasks_group_fail, ?trace_group_fail; simpl; intros j tk ns Hj Hoff.
  - by eapply Hinv.
  - destruct (exploreRequest_extends (GroupCtx ctx) times (trace σ)) as [more ->].
    apply list_lookup_insert_Some in Hj as [(-> & <- & _)|[Hne Hj]]; [done|].
    by eapply Hmono.
  - destruct (exploreRequest_extends (GroupCtx ctx) times (trace σ))
      as [more Hmore].
    apply list_lookup_insert_Some in Hj as [(-> & <- & _)|[Hne Hj]].
    + simpl in Hoff. simplify_eq. exists times, (trace σ).
      split_and!; [by apply Hsp| |done]. rewrite Hmore. by apply prefix_app_r.
    + rewrite Hmore. by eapply Hmono.
  - apply list_lookup_insert_Some in Hj as [(-> & <- & _)|[Hne Hj]].
    + simpl in Hoff. simplify_eq. by eapply (Hinv j (Offering ns)).
    + by eapply Hinv.
  - apply list_lookup_insert_Some in Hj as [(-> & <- & _)|[Hne Hj]].
    + simpl in Hoff. simplify_eq. by eapply (Hinv j (Offering ns)).
    + by eapply Hinv.
Qed.

Lemma response_inv_run (ranges : list (Time * Time)) (t : list (io auth_Config))
    (sched : list event) (σ : state) :
  run c ctx f tenantID (exploreInit ranges t) sched = Some σ →
  response_inv c ctx f tenantID ranges σ.
Proof.
  intros Hrun.
  cut (request_inv c ctx f tenantID ranges t σ
       ∧ response_inv c ctx f tenantID ranges σ); [by intros [_ ?]|].
  eapply (run_invariant c ctx f tenantID
            (λ σ, request_inv c ctx f tenantID ranges t σ
                  ∧ response_inv c ctx f tenantID ranges σ));
    [| |exact Hrun].
  - intros σ1 e σ2 [Hq Hp] Hs. split.
    + by eapply request_inv_step.
    + by eapply response_inv_step.
  - split; [by apply (request_inv_run ranges t [])|].
    intros i tk ns Hi Hoff. simpl in Hi.
    by apply list_lookup_fmap_Some in Hi as (times & -> & _).
Qed.

End requests.

(** ** The explorer: every run can be completed *)

Section progress.
Context (c : Client) (ctx : Context) (f : Filter) (tenantID : string).

Lemma work_insert (ts : list task) (i : nat) (t0 t1 : task) :
  ts !! i = Some t0 →
  (work (<[i := t1]> ts) + pending t0 = work ts + pending t1)%nat.
Proof.
  revert i. induction ts as [|a ts IH]; intros [|i] Hi; simplify_eq/=; [lia|].
  specialize (IH i Hi). lia.
Qed.

Lemma work_zero (ts : list task) : work ts = 0%nat → forallb returned ts = true.
Proof.
  induction ts as [|a ts IH]; simpl; [done|].
  intros Hw. rewrite IH by lia. by destruct a; simpl in *; try lia.
Qed.

Lemma work_pos (ts : list task) :
  (0 < work ts)%nat → ∃ i t, ts !! i = Some t ∧ (0 < pending t)%nat.
Proof.
  induction ts as [|a ts IH]; simpl; [lia|].
  intros Hw. destruct (decide (0 < pending a)%nat) as [Ha|Ha].
  - by exists 0%nat, a.
  - destruct IH as (i & t & Hi & Ht); [lia|]. by exists (S i), t.
Qed.

(** From any state some schedule without cancellation lets every task
    return. *)
Lemma run_completes (n : nat) : ∀ σ : state,
  (work (tasks σ) ≤ n)%nat →
  ∃ sched σ',
    run c ctx f tenantID σ sched = Some σ'
    ∧ forallb returned (tasks σ') = true
    ∧ parent_err σ' = parent_err σ.
Proof.
  induction n as [|n IH]; intros σ Hw.
  { exists [], σ. split_and!; [done| |done]. apply work_zero. lia. }
  destruct (decide (work (tasks σ) = 0)%nat) as [Hz|Hnz].
  { exists [], σ. split_and!; [done| |done]. by apply work_zero. }
  destruct (work_pos (tasks σ)) as (i & t & Hi & Ht); [lia|].
  assert (∃ e σ1, step_spec c ctx f tenantID σ e σ1
                  ∧ (work (tasks σ1) < work (tasks σ))%nat
                  ∧ parent_err σ1 = parent_err σ) as (e & σ1 & Hs & Hlt & Hpe).
  { destruct t as [times|names| | |]; simpl in Ht; try lia.
    - destruct (exploreRequest c (GroupCtx ctx) f tenantID times (trace σ)).1
        as [err|names] eqn:Hr.
      + eexists _, _. split; [by eapply step_Run_fail|].
        rewrite tasks_group_fail, parent_err_group_fail. simpl. split; [|done].
        pose proof (work_insert _ _ _ (Failed err) Hi). simpl in *. lia.
      + eexists _, _. split; [by eapply step_Run_ok|]. simpl. split; [|done].
        pose proof (work_insert _ _ _ (Offering names) Hi). simpl in *. lia.
    - eexists _, _. split; [by eapply step_Send|]. simpl. split; [|done].
      pose proof (work_insert _ _ _ (Delivered names) Hi). simpl in *. lia. }
  destruct (IH σ1) as (sched & σ' & Hrun & Hret & Hpe'); [lia|].
  exists (e :: sched), σ'. simpl.
  rewrite (step_complete _ _ _ _ _ _ _ Hs). split_and!; [done..|congruence].
Qed.

Lemma exploreWait_returns (σ : state) :
  forallb returned (tasks σ) = true → is_Some (exploreWait σ).
Proof.
  intros Hr. unfold exploreWait. rewrite Hr. simpl. by destruct (g_err σ).
Qed.

(** Every run of the tasks, however far it got, extends to a run of
    [Explore] that returns. *)
Lemma exploreRun_extends (ranges : list (Time * Time))
    (t : list (io auth_Config)) (pre : list event) (σ : state) :
  run c ctx f tenantID (exploreInit ranges t) pre = Some σ →
  ∃ post σ', exploreRun c ctx f tenantID ranges (pre ++ post) t = Some σ'.
Proof.
  intros Hpre.
  destruct (run_completes (work (tasks σ)) σ) as (post & σ1 & Hrun & Hret & _);
    [done|].
  destruct (exploreWait_returns σ1 Hret) as [σ' Hw].
  exists post, σ'. unfold exploreRun. rewrite run_app, Hpre. simpl.
  by rewrite Hrun.
Qed.

End progress.

(** ** The explorer: what the collected names are *)

Section collected.
Context (c : Client) (ctx : Context) (f : Filter) (tenantID : string).

Lemma omap_cons {A B} (g : A → option B) (a : A) (l : list A) :
  omap g (a :: l) = match g a with Some y => y :: omap g l | None => omap g l end.
Proof. done. Qed.

Lemma omap_delivered_insert_none (ts : list task) (i : nat) (t0 t1 : task) :
  ts !! i = Some t0 → delivered t0 = None → delivered t1 = None →
  omap delivered (<[i := t1]> ts) = omap delivered ts.
Proof.
  revert i. induction ts as [|a ts IH]; intros [|i] Hi H0 H1; simplify_eq/=.
  - by rewrite H0, H1.
  - by rewrite (IH i).
Qed.

Lemma omap_delivered_insert_some (ts : list task) (i : nat) (t0 : task)
    (names : list string) :
  ts !! i = Some t0 → delivered t0 = None →
  concat (omap delivered (<[i := Delivered names]> ts))
    ≡ₚ concat (omap delivered ts) ++ names.
Proof.
  revert i. induction ts as [|a ts IH]; intros [|i] Hi H0; simplify_eq/=.
  - rewrite H0. apply Permutation_app_comm.
  - destruct (delivered a); simpl; [|by apply IH].
    rewrite (IH i) by done. by rewrite app_assoc.
Qed.

Lemma delivered_submseteq_offered (ts : list task) :
  omap delivered ts ⊆+ omap offered ts.
Proof.
  induction ts as [|a ts IH]; simpl; [done|].
  destruct a; simpl; try done; by constructor.
Qed.




Lemma perm_inv_step σ e σ' :
  metricNames σ ≡ₚ concat (omap delivered (tasks σ)) →
  step_spec c ctx f tenantID σ e σ' →
  metricNames σ' ≡ₚ concat (omap delivered (tasks σ')).
Proof.
  intros Hinv Hs.
  destruct Hs as [err Hp|i times err Hi Hr|i times names Hi Hr|i names Hi
                 |i names err Hi Hce];
    rewrite ?tasks_group_fail, ?metricNames_group_fail; simpl.
  - done.
  - by rewrite (omap_delivered_insert_none _ _ _ _ Hi).
  - by rewrite (omap_delivered_insert_none _ _ _ _ Hi).
  - by rewrite (omap_delivered_insert_some _ _ _ _ Hi), Hinv.
  - by rewrite (omap_delivered_insert_none _ _ _ _ Hi).
Qed.

Lemma perm_inv_run (ranges : list (Time * Time)) (t : list (io auth_Config))
    (sched : list event) (σ : state) :
  run c ctx f tenantID (exploreInit ranges t) sched = Some σ →
  metricNames σ ≡ₚ concat (omap delivered (tasks σ)).
Proof.
  intros Hrun.
  eapply (run_invariant c ctx f tenantID
            (λ σ, metricNames σ ≡ₚ concat (omap delivered (tasks σ))));
    [apply perm_inv_step| |exact Hrun].
  simpl.
  assert (omap delivered (Spawned <$> ranges) = []) as ->; [|done].
  clear Hrun. induction ranges as [|r ranges IH]; [done|].
  rewrite fmap_cons, omap_cons. cbn [delivered]. exact IH.
Qed.

(** What [errs.Wait()] and the log line leave of the state. *)
Lemma exploreWait_inv (σ1 σ : state) :
  exploreWait σ1 = Some σ →
  forallb returned (tasks σ1) = true
  ∧ tasks σ = tasks σ1
  ∧ metricNames σ = metricNames σ1
  ∧ parent_err σ = parent_err σ1
  ∧ g_err σ = g_err σ1
  ∧ is_Some (ctx_err σ)
  ∧ trace σ = trace σ1 ++ match g_err σ1 with
                          | Some err => [io_Log ("error eplore metrics: " +:+ Error err)]
                          | None => []
                          end.
Proof.
  unfold exploreWait. destruct (forallb returned (tasks σ1)); [|done]. simpl.
  destruct (g_err σ1) eqn:Hg; intros [= <-]; simpl;
    rewrite ?app_nil_r; split_and!; try done; by destruct (ctx_err σ1).
Qed.

Lemma exploreRun_inv (ranges : list (Time * Time)) (sched : list event)
    (t : list (io auth_Config)) (σ : state) :
  exploreRun c ctx f tenantID ranges sched t = Some σ →
  ∃ σ1, run c ctx f tenantID (exploreInit ranges t) sched = Some σ1
        ∧ exploreWait σ1 = Some σ.
Proof.
  unfold exploreRun. destruct (run _ _ _ _ _ _) as [σ1|]; [|done].
  simpl. eauto.
Qed.

Lemma Explore_eq (ranges : list (Time * Time)) (sched : list event)
    (t : list (io auth_Config)) (σ : state) :
  exploreRanges f = inr ranges →
  exploreRun c ctx f tenantID ranges sched t = Some σ →
  Explore c ctx f tenantID sched t = Some (metricNames σ, None, trace σ).
Proof. intros Hr Hrun. unfold Explore. by rewrite Hr, Hrun. Qed.

End collected.

(** ** The explorer: succeeded requests and the group's error *)

Section answered.
Context (c : Client) (ctx : Context) (f : Filter) (tenantID : string).









Lemma first_err_inv_step σ e σ' :
  first_err_inv σ → step_spec c ctx f tenantID σ e σ' → first_err_inv σ'.
Proof.
  intros Hinv Hs.
  destruct Hs as [err Hp|i times err Hi Hr|i times names Hi Hr|i names Hi
                 |i names err Hi Hce]; unfold first_err_inv;
    rewrite ?g_err_group_fail; intros e'; rewrite ?some_task_group_fail; simpl.
  - apply Hinv.
  - destruct (g_err σ) as [e0|] eqn:Hg; simpl; intros [= <-].
    + eapply some_task_insert_keep; [done|done|by apply Hinv].
    + by eapply some_task_insert_here.
  - intros Hg. eapply some_task_insert_keep; [done|done|by apply Hinv].
  - intros Hg. eapply some_task_insert_keep; [done|done|by apply Hinv].
  - destruct (g_err σ) as [e0|] eqn:Hg; simpl; intros [= <-].
    + eapply some_task_insert_keep; [done|done|by apply Hinv].
    + by eapply some_task_insert_here.
Qed.

Lemma first_err_inv_run (ranges : list (Time * Time)) (t : list (io auth_Config))
    (sched : list event) (σ : state) :
  run c ctx f tenantID (exploreInit ranges t) sched = Some σ → first_err_inv σ.
Proof. apply run_invariant; [apply first_err_inv_step|done]. Qed.

End answered.

(** ** The explorer: the claims *)

Lemma Explore_inv (c : Client) (ctx : Context) (f : Filter) (tenantID : string)
    (sched : list event) (t t' : list (io auth_Config)) (names : list string)
    (err : option error) :
  Explore c ctx f tenantID sched t = Some (names, err, t') →
  (∃ e, exploreRanges f = inl e ∧ names = [] ∧ err = Some e ∧ t' = t)
  ∨ (∃ ranges σ, exploreRanges f = inr ranges
       ∧ exploreRun c ctx f tenantID ranges sched t = Some σ
       ∧ names = metricNames σ ∧ err = None ∧ t' = trace σ).
Proof.
  unfold Explore. destruct (exploreRanges f) as [e|ranges].
  - intros [= <- <- <-]. left. by exists e.
  - destruct (exploreRun _ _ _ _ _ _ _) as [σ|] eqn:Hrun; [|done].
    simpl. intros [= <- <- <-]. right. by exists ranges, σ.
Qed.

Lemma exploreRanges_inl (f : Filter) :
  (∃ e, exploreRanges f = inl e) ↔
    (∃ e, utils_GetTime (TimeStart f) = inl e)
    ∨ (∃ e, utils_GetTime (TimeEnd f) = inl e)
    ∨ (∃ start end_ e,
         utils_GetTime (TimeStart f) = inr start
         ∧ utils_GetTime (TimeEnd f) = inr end_
         ∧ stepper_SplitDateRange start end_ (exploreChunk f) false = inl e).
Proof.
  unfold exploreRanges.
  destruct (utils_GetTime (TimeStart f)) as [e1|start] eqn:H1.
  { split; eauto. }
  destruct (utils_GetTime (TimeEnd f)) as [e2|end_] eqn:H2.
  { split; eauto. }
  destruct (stepper_SplitDateRange _ _ _ _) as [e3|ranges] eqn:H3.
  - split; [|eauto]. intros _. right. right. by exists start, end_, e3.
  - split; [by intros [? ?]|].
    intros [[? ?]|[[? ?]|(? & ? & ? & ? & ? & ?)]]; simplify_eq; congruence.
Qed.


(** C1 (amended): [Explore] returns an error exactly when parsing
    timeStart, parsing timeEnd or splitting the range fails; it then returns
    the nil list and has touched nothing, so no request went out.
    Otherwise the error is nil whatever the tasks did: the names are, up to
    order, the lists of the tasks that delivered, which are among the
    sub-ranges that did not fail; if some task returned an error, exactly
    one line is logged, and it carries the error the group holds, which is
    the error of one of the tasks; and when every task failed the list is
    empty. *)
Theorem Explore_errors (c : Client) (ctx : Context) (f : Filter)
    (tenantID : string) (sched : list event) (t t' : list (io auth_Config))
    (names : list string) (err : option error) :
  Explore c ctx f tenantID sched t = Some (names, err, t') →
  (is_Some err ↔
     (∃ e, utils_GetTime (TimeStart f) = inl e)
     ∨ (∃ e, utils_GetTime (TimeEnd f) = inl e)
     ∨ (∃ start end_ e,
          utils_GetTime (TimeStart f) = inr start
          ∧ utils_GetTime (TimeEnd f) = inr end_
          ∧ stepper_SplitDateRange start end_ (exploreChunk f) false = inl e))
  ∧ (is_Some err → names = [] ∧ t' = t)
  ∧ (err = None →
       ∃ ranges σ,
         exploreRanges f = inr ranges
         ∧ exploreRun c ctx f tenantID ranges sched t = Some σ
         ∧ names = metricNames σ ∧ t' = trace σ
         ∧ names ≡ₚ concat (omap delivered (tasks σ))
         ∧ (is_Some (g_err σ) ↔ some_task has_err σ)
         ∧ logged t' = logged t ++ match g_err σ with
                                   | Some e => ["error eplore metrics: " +:+ Error e]
                                   | None => []
                                   end
         ∧ ((∀ tk, tk ∈ tasks σ → is_Failed tk) → names = [])
         ∧ omap delivered (tasks σ) ⊆+ omap offered (tasks σ)
         ∧ (∀ e, g_err σ = Some e →
              some_task (λ tk, task_err tk = Some e) σ)).
Proof.
  intros [(e & Hr & -> & -> & ->)|(ranges & σ & Hr & Hrun & -> & -> & ->)]%Explore_inv.
  - split_and!; [|done|done].
    split; [|eauto]. intros _. apply exploreRanges_inl. eauto.
  - split_and!.
    + split; [by intros [? ?]|]. intros [e He]%exploreRanges_inl. congruence.
    + by intros [? ?].
    + intros _. exists ranges, σ.
      destruct (exploreRun_inv _ _ _ _ _ _ _ _ Hrun) as (σ1 & Hrun1 & Hw).
      destruct (exploreWait_inv _ _ Hw) as (Hret & Hts & Hmn & Hpe & Hge & Hce & Htr).
      pose proof (perm_inv_run _ _ _ _ _ _ _ _ Hrun1) as Hperm.
      pose proof (first_err_inv_run _ _ _ _ _ _ _ _ Hrun1) as Hfirst.
      destruct (cancel_inv_run _ _ _ _ _ _ _ _ Hrun1) as (Hg & _ & _).
      destruct (request_inv_run _ _ _ _ _ _ _ _ Hrun1) as (_ & _ & Hlog & _).
      assert (Hp : metricNames σ ≡ₚ concat (omap delivered (tasks σ))).
      { by rewrite Hmn, Hts. }
      split_and!; try done.
      * rewrite Hge, Hg. unfold some_task. by rewrite Hts.
      * rewrite Htr, logged_app, Hlog, Hge. by destruct (g_err σ1).
      * intros Hall. apply Permutation_nil_r. rewrite Hp.
        assert (omap delivered (tasks σ) = []) as ->; [|done].
        clear -Hall. induction (tasks σ) as [|a ts IH]; [done|].
        rewrite omap_cons.
        destruct (Hall a) as [e ->]; [by left|]. simpl.
        apply IH. intros tk Htk. apply Hall. by right.
      * apply delivered_submseteq_offered.
      * intros e He. rewrite Hge in He. unfold some_task. rewrite Hts.
        by apply Hfirst.
Qed.

(** C5: every request [Explore] sends is a GET, bound to the group's
    context, to the tenant-scoped path when the tenant is non-empty and to
    the global path otherwise; its query has match[] set to the filter's
    match, and start (resp. end) set to the RFC3339 form of the start
    (resp. end) of one of the sub-ranges when the filter's timeStart
    (resp. timeEnd) is non-empty, and left as the URL had it otherwise. *)
Theorem Explore_requests (c : Client) (ctx : Context) (f : Filter)
    (tenantID : string) (sched : list event) (t t' : list (io auth_Config))
    (names : list string) (err : option error) :
  Explore c ctx f tenantID sched t = Some (names, err, t') →
  ∃ reqs,
    sent t' = sent t ++ reqs
    ∧ ∀ r, r ∈ reqs →
        ∃ ranges times q0,
          exploreRanges f = inr ranges ∧ times ∈ ranges
          ∧ url_Parse (req_url r) = inr q0
          ∧ req_method r = MethodGet
          ∧ req_ctx r = GroupCtx ctx
          ∧ (tenantID ≠ "" →
               req_url r = Addr c +:+ "/select/" +:+ tenantID
                             +:+ "/prometheus/api/v1/label/__name__/values")
          ∧ (tenantID = "" →
               req_url r = Addr c +:+ "/api/v1/label/__name__/values")
          ∧ req_query r !! "match[]" = Some [Match f]
          ∧ (TimeStart f ≠ "" →
               req_query r !! "start" = Some [time_Format_RFC3339 times.1])
          ∧ (TimeStart f = "" → req_query r !! "start" = q0 !! "start")
          ∧ (TimeEnd f ≠ "" →
               req_query r !! "end" = Some [time_Format_RFC3339 times.2])
          ∧ (TimeEnd f = "" → req_query r !! "end" = q0 !! "end").
Proof.
  intros [(e & Hr & -> & -> & ->)|(ranges & σ & Hr & Hrun & -> & -> & ->)]%Explore_inv.
  { exists []. split; [by rewrite app_nil_r|]. by intros r ?%elem_of_nil. }
  destruct (exploreRun_inv _ _ _ _ _ _ _ _ Hrun) as (σ1 & Hrun1 & Hw).
  destruct (exploreWait_inv _ _ Hw) as (_ & _ & _ & _ & _ & _ & Htr).
  destruct (request_inv_run _ _ _ _ _ _ _ _ Hrun1) as (_ & _ & _ & reqs & Hsent & Hreqs).
  exists reqs. split.
  { rewrite Htr, sent_app, Hsent. destruct (g_err σ1); simpl; by rewrite app_nil_r. }
  intros r (times & Htimes & Hr')%Hreqs. unfold issued, NewRequestWithContext in Hr'.
  destruct (url_Parse (exploreURL c tenantID)) as [e|q0] eqn:Hq;
    [by apply elem_of_nil in Hr'|].
  apply list_elem_of_singleton in Hr' as ->.
  exists ranges, times, q0.
  assert (Hsr : ∀ req, req_url (sent_request c req) = req_url req
                       ∧ req_method (sent_request c req) = req_method req
                       ∧ req_ctx (sent_request c req) = req_ctx req
                       ∧ req_query (sent_request c req) = req_query req).
  { intros req. unfold sent_request. by destruct (AuthCfg c). }
  destruct (Hsr (exploreParams f times
                   (mkRequest (GroupCtx ctx) MethodGet (exploreURL c tenantID) q0 ∅ None)))
    as (-> & -> & -> & ->).
  unfold exploreParams, exploreURL, Set_ in *. simpl.
  split_and!; try done.
  all: intros; repeat case_bool_decide; simplify_map_eq; done.
Qed.

(** C2 (amended): at every point of a run of the tasks, the context they
    share is done exactly when the caller's context is done or some task
    has returned an error; the error that starts it is a failed request,
    never a given-up delivery. *)
Theorem group_context_done (c : Client) (ctx : Context) (f : Filter)
    (tenantID : string) (ranges : list (Time * Time))
    (t : list (io auth_Config)) (sched : list event) (σ : state) :
  run c ctx f tenantID (exploreInit ranges t) sched = Some σ →
  (is_Some (ctx_err σ) ↔ is_Some (parent_err σ) ∨ some_task has_err σ)
  ∧ (is_Some (ctx_err σ) ↔ is_Some (parent_err σ) ∨ some_task is_Failed σ).
Proof.
  intros Hrun.
  destruct (cancel_inv_run _ _ _ _ _ _ _ _ Hrun) as (Hg & Hc & Ha).
  assert (Hfe : some_task is_Failed σ → some_task has_err σ).
  { intros (i & tk & Hi & e & ->). exists i, (Failed e). split; [done|by eexists]. }
  assert (Hef : some_task has_err σ → is_Some (parent_err σ) ∨ some_task is_Failed σ).
  { intros (i & tk & Hi & Hk). destruct tk as [| | |e|ns e]; try by destruct Hk.
    - right. exists i, (Failed e). split; [done|by eexists].
    - apply Ha. exists i, (Abandoned ns e). split; [done|by do 2 eexists]. }
  rewrite Hc, Hg. split; split; intros [?|?]; eauto.
Qed.


(** C10: the names [Explore] returns are the concatenation, in the order
    of delivery, of the lists of the tasks that delivered, each task at
    most once, and each list whole: it is the decoded list of the 200
    response to that task's own request for its own sub-range. *)
Theorem Explore_whole_blocks (c : Client) (ctx : Context) (f : Filter)
    (tenantID : string) (ranges : list (Time * Time)) (sched : list event)
    (t : list (io auth_Config)) (σ : state) :
  exploreRanges f = inr ranges →
  exploreRun c ctx f tenantID ranges sched t = Some σ →
  ∃ order : list nat,
    NoDup order
    ∧ Explore c ctx f tenantID sched t =
        Some (concat (block (tasks σ) <$> order), None, trace σ)
    ∧ ∀ i, i ∈ order →
        ∃ times t1 req resp response,
          ranges !! i = Some times
          ∧ tasks σ !! i = Some (Delivered (block (tasks σ) i))
          ∧ t1 `prefix_of` trace σ
          ∧ NewRequestWithContext (GroupCtx ctx) MethodGet
              (exploreURL c tenantID) None = inr req
          ∧ HTTPClient c (t1 ++ hook_calls c (exploreParams f times req))
              (sent_request c (exploreParams f times req)) = inr resp
          ∧ StatusCode resp = StatusOK
          ∧ json_Decode_Response (resp_Body resp) = inr response
          ∧ body_close_err (resp_Body resp) = None
          ∧ block (tasks σ) i = MetricNames response.
Proof.
  intros Hr Hrun.
  destruct (exploreRun_inv _ _ _ _ _ _ _ _ Hrun) as (σ1 & Hrun1 & Hw).
  destruct (exploreWait_inv _ _ Hw) as (Hret & Hts & Hmn & Hpe & Hge & Hce & Htr).
  destruct (deliver_inv_run _ _ _ _ _ _ _ _ Hrun1) as (order & Hnd & Hin & Hnames).
  pose proof (response_inv_run _ _ _ _ _ _ _ _ Hrun1) as Hresp.
  exists order. split_and!; [done| |].
  { rewrite (Explore_eq _ _ _ _ _ _ _ _ Hr Hrun). by rewrite Hmn, Hts, Hnames. }
  intros i [ns Hi]%Hin.
  destruct (Hresp i (Delivered ns) ns Hi eq_refl) as (times & t1 & Hti & Hpre & Hreq).
  destruct (exploreRequest_ok _ _ _ _ _ _ _ Hreq)
    as (req & resp & response & ? & ? & ? & ? & ? & ?).
  assert (Hb : block (tasks σ) i = ns).
  { unfold block. by rewrite Hts, Hi. }
  exists times, t1, req, resp, response. rewrite Hb, Hts.
  split_and!; try done.
  rewrite Htr. by apply prefix_app_r.
Qed.

(** X18: [Explore] returns: every run of the tasks, however far it got,
    extends to one after which the call returns; there is always a
    schedule. *)
Theorem Explore_returns (c : Client) (ctx : Context) (f : Filter)
    (tenantID : string) (t : list (io auth_Config)) :
  (∃ sched r, Explore c ctx f tenantID sched t = Some r)
  ∧ (∀ ranges pre σ,
       exploreRanges f = inr ranges →
       run c ctx f tenantID (exploreInit ranges t) pre = Some σ →
       ∃ post r, Explore c ctx f tenantID (pre ++ post) t = Some r).
Proof.
  assert (Hext : ∀ ranges pre σ,
            exploreRanges f = inr ranges →
            run c ctx f tenantID (exploreInit ranges t) pre = Some σ →
            ∃ post r, Explore c ctx f tenantID (pre ++ post) t = Some r).
  { intros ranges pre σ Hr Hpre.
    destruct (exploreRun_extends _ _ _ _ _ _ _ _ Hpre) as (post & σ' & Hrun).
    exists post. eexists. by eapply Explore_eq. }
  split; [|done].
  destruct (exploreRanges f) as [e|ranges] eqn:Hr.
  - exists []. eexists. unfold Explore. by rewrite Hr.
  - destruct (Hext ranges [] (exploreInit ranges t) eq_refl eq_refl) as (post & r & ?).
    by exists post, r.
Qed.

(** ** Further properties of the request executor and the single-request
    operations *)

(** X1: [do] never closes, decodes or logs anything: when the status is the
    expected one or the round trip fails it reads nothing either, and when
    the status is unexpected it reads the body to the end once and leaves
    it open. *)
Theorem do_leaves_bodies_open (c : Client) (req : Request) (expSC : Z)
    (t : list (io auth_Config)) :
  let r := do c req expSC t in
  closed r.2 = closed t
  ∧ decoded r.2 = decoded t
  ∧ logged r.2 = logged t
  ∧ match HTTPClient c (t ++ hook_calls c req) (sent_request c req) with
    | inl _ => drained r.2 = drained t
    | inr resp =>
        if decide (StatusCode resp = expSC) then drained r.2 = drained t
        else drained r.2 = drained t ++ [resp_Body resp]
    end.
Proof.
  intros r. subst r. rewrite do_eq.
  destruct (HTTPClient c _ _) as [cause|resp]; [by simpl; trace_simpl|].
  case_bool_decide; case_decide; try done; simpl; by trace_simpl.
Qed.


(** X3: [ImportPipe] returns nil exactly when the URL parsed, the round
    trip gave a response, its status was 204 and closing its body
    succeeded. *)
Theorem ImportPipe_nil_iff (c : Client) (ctx : Context) (dstURL : string)
    (pr : Body) (t : list (io auth_Config)) :
  (ImportPipe c ctx dstURL pr t).1 = None ↔
    ∃ req resp,
      NewRequestWithContext ctx MethodPost dstURL (Some pr) = inr req
      ∧ HTTPClient c (t ++ hook_calls c req) (sent_request c req) = inr resp
      ∧ StatusCode resp = StatusNoContent
      ∧ body_close_err (resp_Body resp) = None.
Proof.
  unfold ImportPipe.
  destruct (NewRequestWithContext _ _ _ _) as [e|req] eqn:Hreq; simpl.
  { split; [done|]. by intros (? & ? & ? & _). }
  run_m. rewrite do_eq.
  destruct (HTTPClient c _ _) as [cause|resp] eqn:Hout.
  { simpl. split; [done|]. intros (? & ? & ? & ? & _). simplify_eq. congruence. }
  case_bool_decide as Hsc; simpl.
  { split; [done|]. intros (? & ? & ? & ? & ? & _). simplify_eq.
    destruct Hsc. congruence. }
  destruct (body_close_err (resp_Body resp)) as [e|] eqn:Hcl; simpl.
  - split; [done|]. intros (? & ? & ? & ? & ? & ?). simplify_eq. congruence.
  - split; [|done]. intros _. exists req, resp. split_and!; try done.
Qed.

(** The request [GetSourceTenants] sends when the tenants URL parses. *)
Lemma GetSourceTenants_sent (c : Client) (ctx : Context) (f : Filter)
    (t : list (io auth_Config)) (q0 : gmap string (list string)) :
  url_Parse (Addr c +:+ "/" +:+ nativeTenantsAddr) = inr q0 →
  ∃ req,
    sent (GetSourceTenants c ctx f t).2 = sent t ++ [req]
    ∧ req_query req =
        (let params := if bool_decide (TimeStart f ≠ "")
                       then Set_ "start" (TimeStart f) q0 else q0 in
         if bool_decide (TimeEnd f ≠ "")
         then Set_ "end" (TimeEnd f) params else params).
Proof.
  intros Hq. unfold GetSourceTenants, NewRequestWithContext. rewrite Hq.
  match goal with |- context [do c ?q _] => set (req := q) end.
  exists (sent_request c req). split.
  - run_m. rewrite do_eq.
    destruct (HTTPClient c _ _) as [cause|resp]; [|case_bool_decide]; simpl;
      [by trace_simpl..|].
    destruct (json_Decode_Tenants _); simpl; [by trace_simpl|].
    destruct (body_close_err _); simpl; by trace_simpl.
  - unfold sent_request. by destruct (AuthCfg c).
Qed.
(** X4: [ExportPipe] returns a body exactly when it returns no error, and
    then the URL parsed and the round trip gave a 200 response, whose body
    is the one returned, neither read nor closed.  Nothing is ever closed
    or decoded by [ExportPipe]. *)
Theorem ExportPipe_result (c : Client) (ctx : Context) (url : string)
    (f : Filter) (t : list (io auth_Config)) :
  let r := ExportPipe c ctx url f t in
  (is_Some r.1.1 ↔ r.1.2 = None)
  ∧ closed r.2 = closed t
  ∧ decoded r.2 = decoded t
  ∧ (∀ b, r.1.1 = Some b →
       drained r.2 = drained t
       ∧ ∃ req0 resp,
           sent r.2 = sent t ++ [sent_request c req0]
           ∧ HTTPClient c (t ++ hook_calls c req0) (sent_request c req0) = inr resp
           ∧ StatusCode resp = StatusOK
           ∧ b = resp_Body resp).
Proof.
  intros r. subst r. unfold ExportPipe.
  assert (Hno : ∀ e : error, is_Some (@None Body) ↔ Some e = None).
  { intros e. split; [by intros [? ?]|done]. }
  destruct (NewRequestWithContext _ _ _ _) as [e|req0]; simpl.
  { by split_and!. }
  match goal with |- context [do c ?q _] => set (req := q) end.
  run_m. rewrite do_eq.
  destruct (HTTPClient c _ _) as [cause|resp] eqn:Hout; simpl.
  { trace_simpl. by split_and!. }
  case_bool_decide as Hsc; simpl.
  { trace_simpl. by split_and!. }
  trace_simpl. split_and!; try done.
  intros b [= <-]. split; [done|].
  by exists req, resp.
Qed.

(** X5: when the round trip itself fails, the error [ExportPipe] returns
    wraps the transport's error two levels down, so [errors.Is] still
    finds it; [ImportPipe] and [GetSourceTenants] format it with [%s]: the
    chain of their error is the error alone, and the cause survives only
    as text in the message. *)
Theorem transport_error_chains (c : Client) (ctx : Context) (url : string)
    (f : Filter) (pr : Body) (t : list (io auth_Config)) (cause : error) :
  (∀ t' req, HTTPClient c t' req = inl cause) →
  (∀ q0, url_Parse url = inr q0 →
     ∃ err, (ExportPipe c ctx url f t).1 = (None, Some err)
            ∧ errors_chain err = err :: errors_chain
                (Errorf_w "unexpected error when performing request: " cause)
            ∧ cause ∈ errors_chain err)
  ∧ (∀ q0, url_Parse url = inr q0 →
       ∃ err, (ImportPipe c ctx url pr t).1 = Some err
              ∧ errors_chain err = [err]
              ∧ contains (Error err) (Error cause))
  ∧ (∀ q0, url_Parse (Addr c +:+ "/" +:+ nativeTenantsAddr) = inr q0 →
       ∃ err, (GetSourceTenants c ctx f t).1 = ([], Some err)
              ∧ errors_chain err = [err]
              ∧ contains (Error err) (Error cause)).
Proof.
  intros Hdown. split_and!; intros q0 Hq.
  - unfold ExportPipe, NewRequestWithContext. rewrite Hq. run_m.
    rewrite do_eq, Hdown. simpl. eexists. split; [done|]. split; [done|].
    simpl. right. right. destruct cause; by left.
  - unfold ImportPipe, NewRequestWithContext. rewrite Hq. run_m.
    rewrite do_eq, Hdown. simpl. eexists. split; [done|]. split; [done|].
    simpl. apply contains_app_r, contains_suffix.
  - unfold GetSourceTenants, NewRequestWithContext. rewrite Hq. run_m.
    rewrite do_eq, Hdown. simpl. eexists. split; [done|]. split; [done|].
    simpl. apply contains_app_r, contains_suffix.
Qed.

(** X6: [GetSourceTenants] ignores the filter's match expression and
    chunk: two filters with the same timeStart and timeEnd give the same
    request, the same result and the same effects. *)
Theorem GetSourceTenants_ignores_match (c : Client) (ctx : Context)
    (f f' : Filter) (t : list (io auth_Config)) :
  TimeStart f = TimeStart f' → TimeEnd f = TimeEnd f' →
  GetSourceTenants c ctx f t = GetSourceTenants c ctx f' t
  ∧ ∀ q0 r, url_Parse (Addr c +:+ "/" +:+ nativeTenantsAddr) = inr q0 →
      r ∈ sent (GetSourceTenants c ctx f t).2 → r ∉ sent t →
      req_query r !! "match[]" = q0 !! "match[]".
Proof.
  intros Hs He. split.
  { unfold GetSourceTenants. by rewrite Hs, He. }
  intros q0 r Hq.
  destruct (GetSourceTenants_sent c ctx f t q0 Hq) as (req & Hsent & Hquery).
  rewrite Hsent. intros [?|Hr%list_elem_of_singleton]%elem_of_app Hn; [done|].
  subst r. rewrite Hquery. unfold Set_.
  repeat case_bool_decide; by simplify_map_eq.
Qed.

Lemma filter_decodes_singleton {A} (dec : Body → error + A) (b : Body) :
  filter (λ b, decodes_ok dec b) [b] = if decodes_ok dec b then [b] else [].
Proof.
  rewrite filter_cons, filter_nil.
  destruct (decodes_ok dec b); by case_decide.
Qed.

(** X7: [GetSourceTenants] decodes at most one body, and closes exactly
    the body whose decoding succeeded: after a decode failure the body is
    left open, and on an unexpected status or a failed round trip nothing
    is decoded or closed. *)
Theorem GetSourceTenants_bodies (c : Client) (ctx : Context) (f : Filter)
    (t : list (io auth_Config)) :
  let r := GetSourceTenants c ctx f t in
  ∃ dl : list Body,
    (length dl ≤ 1)%nat
    ∧ decoded r.2 = decoded t ++ dl
    ∧ closed r.2 = closed t ++ filter (λ b, decodes_ok json_Decode_Tenants b) dl
    ∧ (r.1.2 = None → length dl = 1%nat)
    ∧ logged r.2 = logged t.
Proof.
  intros r. subst r. unfold GetSourceTenants.
  destruct (NewRequestWithContext _ _ _ _) as [e|req0]; simpl.
  { exists []. simpl. rewrite !app_nil_r. split_and!; try done. lia. }
  run_m. rewrite do_eq.
  destruct (HTTPClient c _ _) as [cause|resp]; [|case_bool_decide]; simpl.
  { exists []. trace_simpl. split_and!; try done. simpl. lia. }
  { exists []. trace_simpl. split_and!; try done. simpl. lia. }
  exists [resp_Body resp].
  rewrite filter_decodes_singleton. unfold decodes_ok.
  destruct (json_Decode_Tenants (resp_Body resp)); simpl.
  { trace_simpl. by split_and!. }
  destruct (body_close_err _); simpl; trace_simpl; by split_and!.
Qed.


(** ** Further properties of the explorer *)

Section more_explore.
Context (c : Client) (ctx : Context) (f : Filter) (tenantID : string).

Lemma omap_insert_none {A B} (g : A → option B) (l : list A) (i : nat) (a0 a1 : A) :
  l !! i = Some a0 → g a0 = None → g a1 = None →
  omap g (<[i := a1]> l) = omap g l.
Proof.
  revert i. induction l as [|a l IH]; intros [|i] Hi H0 H1; simplify_eq/=.
  - by rewrite H0, H1.
  - by rewrite (IH i).
Qed.

Lemma omap_insert_remove {A B} (g : A → option B) (l : list A) (i : nat)
    (a0 a1 : A) (x : B) :
  l !! i = Some a0 → g a0 = Some x → g a1 = None →
  omap g l ≡ₚ x :: omap g (<[i := a1]> l).
Proof.
  revert i. induction l as [|a l IH]; intros [|i] Hi H0 H1; simplify_eq/=.
  - by rewrite H0, H1.
  - destruct (g a); simpl; [|by apply IH].
    rewrite (IH i Hi H0 H1). apply Permutation_swap.
Qed.

Lemma omap_spawned_returned (ts : list task) :
  forallb returned ts = true → omap spawned ts = [].
Proof.
  induction ts as [|a ts IH]; [done|]. simpl forallb.
  intros [Ha Hr]%andb_true_iff. rewrite omap_cons, IH by done.
  by destruct a.
Qed.

Lemma count_inv_step ranges t0 σ e σ' :
  count_inv c ctx f tenantID ranges t0 σ →
  step_spec c ctx f tenantID σ e σ' →
  count_inv c ctx f tenantID ranges t0 σ'.
Proof.
  intros (reqs & Hsent & Hperm) Hs.
  assert (Hrun : ∀ i times t1,
            tasks σ !! i = Some (Spawned times) → spawned t1 = None →
            (reqs ++ issued c (GroupCtx ctx) f tenantID times)
              ++ concat (issued c (GroupCtx ctx) f tenantID
                           <$> omap spawned (<[i := t1]> (tasks σ)))
            ≡ₚ concat (issued c (GroupCtx ctx) f tenantID <$> ranges)).
  { intros i times t1 Hi H1. rewrite <- Hperm, <- app_assoc.
    apply Permutation_app_head.
    rewrite (omap_insert_remove spawned _ i _ t1 times Hi eq_refl H1).
    by rewrite fmap_cons. }
  destruct Hs as [err Hp|i times err Hi Hr|i times names Hi Hr|i names Hi
                 |i names err Hi Hce]; unfold count_inv;
    rewrite ?tasks_group_fail, ?trace_group_fail; simpl.
  - by exists reqs.
  - destruct (exploreRequest_trace c (GroupCtx ctx) f tenantID times (trace σ))
      as [Hs _].
    exists (reqs ++ issued c (GroupCtx ctx) f tenantID times). split.
    + by rewrite Hs, Hsent, app_assoc.
    + by apply Hrun.
  - destruct (exploreRequest_trace c (GroupCtx ctx) f tenantID times (trace σ))
      as [Hs _].
    exists (reqs ++ issued c (GroupCtx ctx) f tenantID times). split.
    + by rewrite Hs, Hsent, app_assoc.
    + by apply Hrun.
  - exists reqs. split; [done|].
    by rewrite (omap_insert_none spawned _ i _ _ Hi).
  - exists reqs. split; [done|].
    by rewrite (omap_insert_none spawned _ i _ _ Hi).
Qed.

Lemma count_inv_run (ranges : list (Time * Time)) (t : list (io auth_Config))
    (sched : list event) (σ : state) :
  run c ctx f tenantID (exploreInit ranges t) sched = Some σ →
  count_inv c ctx f tenantID ranges t σ.
Proof.
  apply run_invariant; [apply count_inv_step|].
  exists []. split; [by rewrite app_nil_r|]. simpl.
  assert (omap spawned (Spawned <$> ranges) = ranges) as ->; [|done].
  induction ranges as [|r ranges IH]; [done|].
  rewrite fmap_cons, omap_cons. cbn [spawned]. by rewrite IH.
Qed.

Lemma issued_length (ranges : list (Time * Time)) (q0 : gmap string (list string)) :
  url_Parse (exploreURL c tenantID) = inr q0 →
  length (concat (issued c (GroupCtx ctx) f tenantID <$> ranges)) = length ranges.
Proof.
  intros Hq. induction ranges as [|r ranges IH]; [done|].
  rewrite fmap_cons. simpl. rewrite length_app, IH.
  unfold issued, NewRequestWithContext. by rewrite Hq.
Qed.

Lemma issued_none (ranges : list (Time * Time)) (e : error) :
  url_Parse (exploreURL c tenantID) = inl e →
  concat (issued c (GroupCtx ctx) f tenantID <$> ranges) = [].
Proof.
  intros Hq. induction ranges as [|r ranges IH]; [done|].
  rewrite fmap_cons. simpl. rewrite IH.
  unfold issued, NewRequestWithContext. by rewrite Hq.
Qed.

(** X9: a call of [Explore] that returns has sent, up to order, exactly
    the request of each sub-range: one request per sub-range when the
    explore URL parses, and none at all when it does not. *)
Theorem Explore_one_request_per_range (ranges : list (Time * Time))
    (sched : list event) (t : list (io auth_Config)) (σ : state) :
  exploreRanges f = inr ranges →
  exploreRun c ctx f tenantID ranges sched t = Some σ →
  ∃ reqs,
    sent (trace σ) = sent t ++ reqs
    ∧ reqs ≡ₚ concat (issued c (GroupCtx ctx) f tenantID <$> ranges)
    ∧ (∀ q0, url_Parse (exploreURL c tenantID) = inr q0 →
         length reqs = length ranges)
    ∧ (∀ e, url_Parse (exploreURL c tenantID) = inl e → reqs = []).
Proof.
  intros Hr Hrun.
  destruct (exploreRun_inv _ _ _ _ _ _ _ _ Hrun) as (σ1 & Hrun1 & Hw).
  destruct (exploreWait_inv _ _ Hw) as (Hret & Hts & _ & _ & _ & _ & Htr).
  destruct (count_inv_run _ _ _ _ Hrun1) as (reqs & Hsent & Hperm).
  rewrite omap_spawned_returned in Hperm by done. simpl in Hperm.
  rewrite app_nil_r in Hperm.
  exists reqs. split_and!.
  - rewrite Htr, sent_app, Hsent. destruct (g_err σ1); simpl; by rewrite app_nil_r.
  - done.
  - intros q0 Hq. by rewrite Hperm, (issued_length _ q0).
  - intros e Hq. rewrite (issued_none _ e Hq) in Hperm.
    by apply Permutation_nil_r in Hperm.
Qed.

End more_explore.

Section explore_outcomes.
Context (c : Client) (ctx : Context) (f : Filter) (tenantID : string).

Lemma failure_inv_step ranges t0 σ e σ' :
  request_inv c ctx f tenantID ranges t0 σ →
  failure_inv c ctx f tenantID ranges σ →
  step_spec c ctx f tenantID σ e σ' →
  failure_inv c ctx f tenantID ranges σ'.
Proof.
  intros (Hsp & _) Hinv Hs.
  destruct Hs as [err Hp|i times err Hi Hr|i times names Hi Hr|i names Hi
                 |i names err Hi Hce]; unfold failure_inv;
    rewrite ?tasks_group_fail; simpl; intros j e' Hj.
  - by eapply Hinv.
  - apply list_lookup_insert_Some in Hj as [(-> & Heq & _)|[Hne Hj]].
    + simplify_eq. exists times, (trace σ). split; [by apply Hsp|done].
    + by eapply Hinv.
  - apply list_lookup_insert_Some in Hj as [(-> & Heq & _)|[Hne Hj]]; [done|].
    by eapply Hinv.
  - apply list_lookup_insert_Some in Hj as [(-> & Heq & _)|[Hne Hj]]; [done|].
    by eapply Hinv.
  - apply list_lookup_insert_Some in Hj as [(-> & Heq & _)|[Hne Hj]]; [done|].
    by eapply Hinv.
Qed.

Lemma failure_inv_run (ranges : list (Time * Time)) (t : list (io auth_Config))
    (sched : list event) (σ : state) :
  run c ctx f tenantID (exploreInit ranges t) sched = Some σ →
  failure_inv c ctx f tenantID ranges σ.
Proof.
  intros Hrun.
  cut (request_inv c ctx f tenantID ranges t σ
       ∧ failure_inv c ctx f tenantID ranges σ); [by intros [_ ?]|].
  eapply (run_invariant c ctx f tenantID
            (λ σ, request_inv c ctx f tenantID ranges t σ
                  ∧ failure_inv c ctx f tenantID ranges σ));
    [| |exact Hrun].
  - intros σ1 e σ2 [Hq Hp] Hs. split.
    + by eapply request_inv_step.
    + by eapply failure_inv_step.
  - split; [by apply (request_inv_run c ctx f tenantID ranges t [])|].
    intros i e Hi. simpl in Hi.
    by apply list_lookup_fmap_Some in Hi as (times & ? & _).
Qed.

Lemma omap_delivered_all (ranges : list (Time * Time))
    (names_of : Time * Time → list string) :
  omap delivered ((λ times, Delivered (names_of times)) <$> ranges)
    = names_of <$> ranges.
Proof.
  induction ranges as [|r ranges IH]; [done|].
  rewrite !fmap_cons, omap_cons. cbn [delivered]. by rewrite IH.
Qed.

(** X10: when the request of every sub-range succeeds whenever it is made,
    with the list [names_of times] for the sub-range [times], and the
    caller does not cancel, [Explore] returns, whatever the schedule, a
    permutation of all the lists together, with a nil error and without
    logging anything. *)
Theorem Explore_all_succeed (ranges : list (Time * Time))
    (names_of : Time * Time → list string) (sched : list event)
    (t : list (io auth_Config)) (σ : state) :
  exploreRanges f = inr ranges →
  (∀ times t1, times ∈ ranges →
     (exploreRequest c (GroupCtx ctx) f tenantID times t1).1 = inr (names_of times)) →
  exploreRun c ctx f tenantID ranges sched t = Some σ →
  parent_err σ = None →
  Explore c ctx f tenantID sched t = Some (metricNames σ, None, trace σ)
  ∧ metricNames σ ≡ₚ concat (names_of <$> ranges)
  ∧ logged (trace σ) = logged t.
Proof.
  intros Hr Hok Hrun Hpn.
  destruct (exploreRun_inv _ _ _ _ _ _ _ _ Hrun) as (σ1 & Hrun1 & Hw).
  destruct (exploreWait_inv _ _ Hw) as (Hret & Hts & Hmn & Hpe & Hge & _ & Htr).
  pose proof (perm_inv_run _ _ _ _ _ _ _ _ Hrun1) as Hperm.
  destruct (cancel_inv_run _ _ _ _ _ _ _ _ Hrun1) as (Hg & _ & Ha).
  destruct (request_inv_run _ _ _ _ _ _ _ _ Hrun1) as (_ & Hlen & Hlog & _).
  pose proof (response_inv_run _ _ _ _ _ _ _ _ Hrun1) as Hresp.
  pose proof (failure_inv_run _ _ _ _ Hrun1) as Hfail.
  assert (Hnf : ¬ some_task is_Failed σ1).
  { intros (i & tk & Hi & e & ->).
    destruct (Hfail i e Hi) as (times & t1 & Hti & Hreq).
    rewrite Hok in Hreq; [done|]. by eapply list_elem_of_lookup_2. }
  assert (Hna : ¬ some_task is_Abandoned σ1).
  { intros [[e He]|?]%Ha; [congruence|done]. }
  assert (Htasks : tasks σ1 = (λ times, Delivered (names_of times)) <$> ranges).
  { apply list_eq. intros i. rewrite list_lookup_fmap.
    destruct (tasks σ1 !! i) as [tk|] eqn:Hi.
    - assert (Hrt : returned tk = true).
      { eapply (proj1 (forallb_forall _ _) Hret).
        apply list_elem_of_In. by eapply list_elem_of_lookup_2. }
      destruct tk as [| |ns|e|ns e]; try done.
      + destruct (Hresp i (Delivered ns) ns Hi eq_refl) as (times & t1 & Hti & _ & Hreq).
        rewrite Hti. simpl. rewrite Hok in Hreq by (by eapply list_elem_of_lookup_2).
        by simplify_eq.
      + destruct Hnf. exists i, (Failed e). split; [done|by eexists].
      + destruct Hna. exists i, (Abandoned ns e). split; [done|by do 2 eexists].
    - apply lookup_ge_None in Hi. rewrite Hlen in Hi.
      apply lookup_ge_None in Hi. by rewrite Hi. }
  split_and!.
  - by eapply Explore_eq.
  - by rewrite Hmn, Hperm, Htasks, omap_delivered_all.
  - rewrite Htr, logged_app, Hlog.
    destruct (g_err σ1) as [e|] eqn:Hge1; [|by rewrite app_nil_r].
    destruct (proj1 Hg (mk_is_Some _ _ eq_refl)) as (i & tk & Hi & Hk).
    rewrite Htasks in Hi.
    apply list_lookup_fmap_Some in Hi as (times & -> & _). by destruct Hk.
Qed.

(** X11: when the split yields no sub-range, [Explore] returns the nil
    list and a nil error under every schedule it can run, having sent and
    logged nothing; and the empty schedule is such a schedule. *)
Theorem Explore_no_ranges (sched : list event) (t t' : list (io auth_Config))
    (names : list string) (err : option error) :
  exploreRanges f = inr [] →
  Explore c ctx f tenantID [] t = Some ([], None, t)
  ∧ (Explore c ctx f tenantID sched t = Some (names, err, t') →
       names = [] ∧ err = None ∧ t' = t).
Proof.
  intros Hr. split.
  { unfold Explore. by rewrite Hr. }
  intros [(e & Hr' & _)|(ranges & σ & Hr' & Hrun & -> & -> & ->)]%Explore_inv;
    [congruence|].
  rewrite Hr in Hr'. injection Hr' as <-.
  destruct (exploreRun_inv _ _ _ _ _ _ _ _ Hrun) as (σ1 & Hrun1 & Hw).
  destruct (exploreWait_inv _ _ Hw) as (_ & _ & Hmn & _ & _ & _ & Htr).
  assert (Hst : tasks σ1 = [] ∧ metricNames σ1 = [] ∧ trace σ1 = t
                ∧ g_err σ1 = None).
  { eapply (run_invariant c ctx f tenantID
              (λ σ, tasks σ = [] ∧ metricNames σ = [] ∧ trace σ = t
                    ∧ g_err σ = None)); [| |exact Hrun1]; [|done].
    intros σa e σb (Hta & Hma & Htra & Hga) Hs.
    destruct Hs as [e0 Hp|i times e0 Hi _|i times ns Hi _|i ns Hi|i ns e0 Hi _];
      [done|by rewrite Hta in Hi..]. }
  destruct Hst as (_ & Hm1 & Ht1 & Hg1).
  rewrite Hmn, Htr, Hm1, Ht1, Hg1. by rewrite app_nil_r.
Qed.

(** X12: the one line [Explore] logs reports the first error a task
    returned: once the group holds an error, nothing that happens later in
    the run replaces it. *)
Theorem Explore_logs_first_error (ranges : list (Time * Time))
    (pre post : list event) (t : list (io auth_Config)) (σ1 σ : state)
    (e : error) :
  run c ctx f tenantID (exploreInit ranges t) pre = Some σ1 →
  g_err σ1 = Some e →
  exploreRun c ctx f tenantID ranges (pre ++ post) t = Some σ →
  g_err σ = Some e
  ∧ logged (trace σ) = logged t ++ ["error eplore metrics: " +:+ Error e].
Proof.
  intros Hpre Hg Hrun.
  destruct (exploreRun_inv _ _ _ _ _ _ _ _ Hrun) as (σ2 & Hrun2 & Hw).
  destruct (exploreWait_inv _ _ Hw) as (_ & _ & _ & _ & Hge & _ & Htr).
  destruct (request_inv_run _ _ _ _ _ _ _ _ Hrun2) as (_ & _ & Hlog & _).
  rewrite run_app, Hpre in Hrun2. simpl in Hrun2.
  assert (Hg2 : g_err σ2 = Some e).
  { eapply (run_invariant c ctx f tenantID (λ σ, g_err σ = Some e));
      [|exact Hg|exact Hrun2].
    intros σa ev σb Hga Hs.
    destruct Hs; rewrite ?g_err_group_fail; simpl; by rewrite ?Hga. }
  split; [congruence|].
  by rewrite Htr, logged_app, Hlog, Hg2.
Qed.

End explore_outcomes.

Section explore_resources.
Context (c : Client) (ctx : Context) (f : Filter) (tenantID : string).

Lemma exploreRequest_bodies (cx : Context) (times : Time * Time)
    (t : list (io auth_Config)) :
  let r := exploreRequest c cx f tenantID times t in
  ∃ dl : list Body,
    decoded r.2 = decoded t ++ dl
    ∧ closed r.2 = closed t ++ filter (λ b, decodes_ok json_Decode_Response b) dl.
Proof.
  unfold exploreRequest.
  destruct (NewRequestWithContext _ _ _ _) as [e|req]; simpl.
  { exists []. by rewrite !app_nil_r. }
  run_m. rewrite do_eq.
  destruct (HTTPClient c _ _) as [cause|resp]; [|case_bool_decide]; simpl.
  { exists []. by trace_simpl. }
  { exists []. by trace_simpl. }
  exists [resp_Body resp]. rewrite filter_decodes_singleton. unfold decodes_ok.
  destruct (json_Decode_Response (resp_Body resp)); simpl; [by trace_simpl|].
  destruct (body_close_err _); simpl; by trace_simpl.
Qed.

Lemma bodies_inv_step t0 σ e σ' :
  bodies_inv t0 σ → step_spec c ctx f tenantID σ e σ' → bodies_inv t0 σ'.
Proof.
  intros (dl & Hd & Hc) Hs.
  assert (Hrun : ∀ times,
            ∃ dl', decoded (exploreRequest c (GroupCtx ctx) f tenantID times (trace σ)).2
                     = decoded t0 ++ dl'
                   ∧ closed (exploreRequest c (GroupCtx ctx) f tenantID times (trace σ)).2
                     = closed t0 ++ filter (λ b, decodes_ok json_Decode_Response b) dl').
  { intros times.
    destruct (exploreRequest_bodies (GroupCtx ctx) times (trace σ)) as (d1 & Hd1 & Hc1).
    exists (dl ++ d1). by rewrite Hd1, Hc1, Hd, Hc, filter_app, !app_assoc. }
  destruct Hs as [err Hp|i times err Hi Hr|i times names Hi Hr|i names Hi
                 |i names err Hi Hce]; unfold bodies_inv;
    rewrite ?trace_group_fail; simpl; eauto.
Qed.

(** X13: the response bodies [Explore] closes are exactly those of the
    bodies it decoded whose decoding succeeded; a body that failed to
    decode, and the body of a response with an unexpected status, is left
    open. *)
Theorem Explore_closes_decoded (sched : list event) (t t' : list (io auth_Config))
    (names : list string) (err : option error) :
  Explore c ctx f tenantID sched t = Some (names, err, t') →
  ∃ dl : list Body,
    decoded t' = decoded t ++ dl
    ∧ closed t' = closed t ++ filter (λ b, decodes_ok json_Decode_Response b) dl.
Proof.
  intros [(e & _ & _ & _ & ->)|(ranges & σ & Hr & Hrun & -> & -> & ->)]%Explore_inv.
  { exists []. by rewrite !app_nil_r. }
  destruct (exploreRun_inv _ _ _ _ _ _ _ _ Hrun) as (σ1 & Hrun1 & Hw).
  destruct (exploreWait_inv _ _ Hw) as (_ & _ & _ & _ & _ & _ & Htr).
  assert (Hb : bodies_inv t σ1).
  { eapply (run_invariant c ctx f tenantID (bodies_inv t));
      [apply bodies_inv_step| |exact Hrun1].
    exists []. by rewrite !app_nil_r. }
  destruct Hb as (dl & Hd & Hc). exists dl.
  rewrite Htr, decoded_app, closed_app, Hd, Hc.
  destruct (g_err σ1); simpl; by rewrite !app_nil_r.
Qed.

Lemma omap_delivered_none (ts : list task) :
  (∀ i names, ts !! i ≠ Some (Delivered names)) → omap delivered ts = [].
Proof.
  induction ts as [|a ts IH]; [done|]. intros Hn.
  rewrite omap_cons, IH; [|intros i ns; apply (Hn (S i))].
  destruct a as [| |ns| |]; try done. by destruct (Hn 0%nat ns).
Qed.

(** X14: when the explore URL does not parse, every call of [Explore] that
    gets past the range split still returns a nil error: it sends no
    request, returns no name, and, if there is any sub-range, logs one
    error. *)
Theorem Explore_bad_url (ranges : list (Time * Time)) (sched : list event)
    (t : list (io auth_Config)) (σ : state) (e : error) :
  url_Parse (exploreURL c tenantID) = inl e →
  exploreRanges f = inr ranges →
  exploreRun c ctx f tenantID ranges sched t = Some σ →
  Explore c ctx f tenantID sched t = Some ([], None, trace σ)
  ∧ sent (trace σ) = sent t
  ∧ (ranges ≠ [] → ∃ err, logged (trace σ)
                            = logged t ++ ["error eplore metrics: " +:+ Error err]).
Proof.
  intros Hq Hr Hrun.
  destruct (exploreRun_inv _ _ _ _ _ _ _ _ Hrun) as (σ1 & Hrun1 & Hw).
  destruct (exploreWait_inv _ _ Hw) as (Hret & Hts & Hmn & _ & Hge & _ & Htr).
  pose proof (perm_inv_run _ _ _ _ _ _ _ _ Hrun1) as Hperm.
  pose proof (response_inv_run _ _ _ _ _ _ _ _ Hrun1) as Hresp.
  destruct (cancel_inv_run _ _ _ _ _ _ _ _ Hrun1) as (Hg & _ & _).
  destruct (request_inv_run _ _ _ _ _ _ _ _ Hrun1) as (_ & Hlen & Hlog & _).
  destruct (count_inv_run _ _ _ _ _ _ _ _ Hrun1) as (reqs & Hsent & Hcount).
  assert (Hnd : ∀ i names, tasks σ1 !! i ≠ Some (Delivered names)).
  { intros i ns Hi.
    destruct (Hresp i (Delivered ns) ns Hi eq_refl) as (times & t1 & _ & _ & Hreq).
    destruct (exploreRequest_ok _ _ _ _ _ _ _ Hreq) as (req & ? & ? & Hnew & _).
    unfold NewRequestWithContext in Hnew. by rewrite Hq in Hnew. }
  assert (Hm : metricNames σ = []).
  { apply Permutation_nil_r. by rewrite Hmn, Hperm, omap_delivered_none. }
  assert (Hreqs : reqs = []).
  { rewrite (issued_none c ctx f tenantID ranges e Hq),
      (issued_none c ctx f tenantID (omap spawned (tasks σ1)) e Hq),
      app_nil_r in Hcount.
    by apply Permutation_nil_r in Hcount. }
  split_and!.
  - rewrite (Explore_eq _ _ _ _ _ _ _ _ Hr Hrun). by rewrite Hm.
  - rewrite Htr, sent_app, Hsent, Hreqs.
    destruct (g_err σ1); simpl; by rewrite !app_nil_r.
  - intros Hne. rewrite Htr, logged_app, Hlog.
    destruct (g_err σ1) as [err|] eqn:Hg1; [by exists err|]. exfalso.
    destruct (lookup_lt_is_Some_2 (tasks σ1) 0) as [tk Htk].
    { rewrite Hlen. destruct ranges; [done|simpl; lia]. }
    assert (Hrt : returned tk = true).
    { eapply (proj1 (forallb_forall _ _) Hret).
      apply list_elem_of_In. by eapply list_elem_of_lookup_2. }
    assert (Hk : has_err tk).
    { destruct tk as [| |ns| |]; try done; try by eexists.
      by destruct (Hnd 0%nat ns). }
    assert (Hsome : is_Some (@None error)).
    { apply Hg. by exists 0%nat, tk. }
    by destruct Hsome.
Qed.

End explore_resources.

Section explore_causes.
Context (c : Client) (ctx : Context) (f : Filter) (tenantID : string).

Lemma cause_inv_step σ e σ' :
  cause_inv σ → step_spec c ctx f tenantID σ e σ' → cause_inv σ'.
Proof.
  intros (Hc & Ha) Hs.
  assert (Hkeep : ∀ i t0 t1 j names e',
            tasks σ !! i = Some t0 → (∀ ns er, t1 ≠ Abandoned ns er) →
            <[i := t1]> (tasks σ) !! j = Some (Abandoned names e') →
            e' = context_Canceled ∨ parent_err σ = Some e').
  { intros i t0 t1 j names e' Hi Ht1 Hj.
    apply list_lookup_insert_Some in Hj as [(-> & Heq & _)|[Hne Hj]].
    - by destruct (Ht1 names e').
    - by eapply Ha. }
  destruct Hs as [err Hp|i times err Hi Hr|i times names Hi Hr|i names Hi
                 |i names err Hi Hce]; unfold cause_inv;
    rewrite ?tasks_group_fail, ?ctx_err_group_fail, ?parent_err_group_fail;
    simpl.
  - split.
    + intros e'. destruct (ctx_err σ) as [e0|] eqn:Hce; intros [= <-].
      * destruct (Hc e0 eq_refl) as [?|?]; [by left|congruence].
      * by right.
    + intros j names e' Hj. destruct (Ha j names e' Hj) as [?|?]; [by left|congruence].
  - split.
    + intros e'. destruct (g_err σ), (ctx_err σ) as [e0|] eqn:Hce;
        intros [= <-]; try (by apply Hc); by left.
    + intros j names e' Hj. eapply (Hkeep i _ _ j _ e' Hi); [|exact Hj]; by intros ??.
  - split; [done|]. intros j ns e' Hj. eapply (Hkeep i _ _ j _ e' Hi); [|exact Hj]; by intros ??.
  - split; [done|]. intros j ns e' Hj. eapply (Hkeep i _ _ j _ e' Hi); [|exact Hj]; by intros ??.
  - split.
    + intros e'. rewrite Hce. destruct (g_err σ); intros [= <-]; by apply Hc.
    + intros j ns e' Hj.
      apply list_lookup_insert_Some in Hj as [(-> & Heq & _)|[Hne Hj]].
      * simplify_eq. by apply Hc.
      * by eapply Ha.
Qed.

(** X15: a task that gives up its delivery returns the error of the
    group's context, and that is [context.Canceled] or the error the
    caller's context ended with; if the caller never cancelled it is
    [context.Canceled], and some request had failed before. *)
Theorem abandoned_cause (ranges : list (Time * Time)) (t : list (io auth_Config))
    (sched : list event) (σ : state) (i : nat) (names : list string) (e : error) :
  run c ctx f tenantID (exploreInit ranges t) sched = Some σ →
  tasks σ !! i = Some (Abandoned names e) →
  (e = context_Canceled ∨ parent_err σ = Some e)
  ∧ (parent_err σ = None → e = context_Canceled ∧ some_task is_Failed σ).
Proof.
  intros Hrun Hi.
  assert (Hinv : cause_inv σ).
  { eapply (run_invariant c ctx f tenantID cause_inv);
      [apply cause_inv_step| |exact Hrun].
    split; [done|]. intros j ns e' Hj. simpl in Hj.
    by apply list_lookup_fmap_Some in Hj as (times & ? & _). }
  destruct Hinv as [_ Ha].
  destruct (cancel_inv_run _ _ _ _ _ _ _ _ Hrun) as (_ & _ & Hab).
  split; [by eapply Ha|]. intros Hp. split.
  - destruct (Ha i names e Hi) as [?|?]; [done|congruence].
  - destruct Hab as [[? ?]|?]; [|congruence|done].
    exists i, (Abandoned names e). split; [done|by do 2 eexists].
Qed.

End explore_causes.

(** X16: the errors of [Explore] itself: an unparsable timeStart is
    reported first, whatever timeEnd is; an unparsable timeEnd next; both
    as plain text, so that the parser's error cannot be unwrapped; a failed
    split is wrapped, so that [errors.Unwrap] gives the splitter's error. *)
Theorem Explore_error_kinds (c : Client) (ctx : Context) (f : Filter)
    (tenantID : string) (sched : list event) (t : list (io auth_Config)) :
  (∀ e, utils_GetTime (TimeStart f) = inl e →
     ∃ err, Explore c ctx f tenantID sched t = Some ([], Some err, t)
            ∧ Error err = "failed to parse time start for explore metrics: " +:+ Error e
            ∧ errors_chain err = [err])
  ∧ (∀ start e, utils_GetTime (TimeStart f) = inr start →
       utils_GetTime (TimeEnd f) = inl e →
       ∃ err, Explore c ctx f tenantID sched t = Some ([], Some err, t)
              ∧ Error err = "failed to parse time end for explore metrics: " +:+ Error e
              ∧ errors_chain err = [err])
  ∧ (∀ start end_ e, utils_GetTime (TimeStart f) = inr start →
       utils_GetTime (TimeEnd f) = inr end_ →
       stepper_SplitDateRange start end_ (exploreChunk f) false = inl e →
       ∃ err, Explore c ctx f tenantID sched t = Some ([], Some err, t)
              ∧ Error err = "failed to create date ranges for explore metrics: " +:+ Error e
              ∧ Unwrap err = Some e
              ∧ e ∈ errors_chain err).
Proof.
  unfold Explore, exploreRanges. split_and!.
  - intros e ->. by eexists.
  - intros start e -> ->. by eexists.
  - intros start end_ e -> -> ->. eexists. split_and!; try done.
    simpl. right. destruct e; by left.
Qed.

(** X17: the chunk [Explore] splits by is never minute, hour, day or empty,
    and resolving it twice changes nothing. *)
Theorem exploreChunk_floor (f : Filter) :
(exploreChunk f ∉ ["minute"; "hour"; "day"; ""])
  ∧ exploreChunk (mkFilter (Match f) (TimeStart f) (TimeEnd f) (exploreChunk f))
      = exploreChunk f.
Proof.
  unfold exploreChunk, stepper.StepHour, stepper.StepMinute, stepper.StepDay,
    stepper.StepWeek. simpl.
  rewrite !elem_of_cons, elem_of_nil.
  repeat case_bool_decide; simpl; repeat case_bool_decide; simpl;
    try done; split; try done; intros [?|[?|[?|[?|[]]]]]; congruence.
Qed.

End properties.

(** * The claims on a concrete world *)

Section examples.
Import demo.

(** [ImportPipe] against a destination that answers 500: an error with the
    body text, nothing closed. *)
Lemma ImportPipe_contract_witness :
  closed (ImportPipe (client flaky) caller import_url payload []).2 = []
  ∧ ∃ err, (ImportPipe (client flaky) caller import_url payload []).1 = Some err
           ∧ contains (Error err) "overloaded".
Proof.
  destruct (ImportPipe_contract (client flaky) caller import_url payload []
              (mkRequest caller MethodPost import_url ∅ ∅ (Some payload))
              (mkHTTPResponse 500 (ok_body "overloaded"))
              eq_refl eq_refl) as (_ & Hne & _).
  destruct Hne as (Hc & err & He & Hb); [done|].
  split; [exact Hc|]. exists err. split; [exact He|]. by apply Hb.
Defined.

(** [ExportPipe] for the example filter. *)
Lemma ExportPipe_request_witness :
  ∃ req,
    sent (ExportPipe (client steady) caller export_url filter []).2 = [req]
    ∧ req_method req = MethodGet
    ∧ req_query req !! "match[]" = Some ["up"]
    ∧ req_query req !! "start" = Some [t0]
    ∧ req_query req !! "end" = Some [t2]
    ∧ req_header req !! "Accept-Encoding" = Some ["identity"].
Proof.
  destruct (ExportPipe_request (client steady) caller export_url filter [] ∅ eq_refl)
    as (req & Hs & Hm & _ & Hq & Hst & _ & Hen & _ & _ & _ & Hh & _ & _ & _ & Hn).
  exists req. rewrite Hs, (Hn eq_refl).
  split_and!; [done|done|done|by apply Hst|by apply Hen|done].
Defined.

(** [GetSourceTenants] against a server that lists one tenant. *)
Lemma GetSourceTenants_contract_witness :
  (GetSourceTenants (client steady) caller filter []).1 = (["up"], None).
Proof.
  destruct (GetSourceTenants_contract (client steady) caller filter [] ∅ eq_refl)
    as (req & _ & _ & _ & _ & _ & _ & _ & _ & _ & _ & _ & _ & _ & _ & Hok).
  by apply (Hok (mkHTTPResponse 200 (ok_body "up"))).
Defined.

(** The example filter splits into two weeks. *)
Example filter_ranges : exploreRanges filter = inr ranges.
Proof. reflexivity. Qed.

(** C1, as the spec words it, fails, in two ways.  First: the two
    sub-ranges are answered 500 and 503; both tasks fail, and only the 500
    is logged.  Second: the second sub-range is asked first and is
    answered 500; the first is answered 200 with two names, decodes and
    closes, but its task finds the context done and gives up: a sub-range
    that did not fail has its names left out. *)
Lemma failure_unlogged_and_names_lost :
  (∃ σ, exploreRun (client failing) caller filter "" ranges [Run 0; Run 1]%nat []
          = Some σ
        ∧ tasks σ !! 1%nat = Some (Failed (ErrorString
            "series request failed: unexpected response code 503: unavailable"))
        ∧ logged (trace σ) = ["error eplore metrics: series request failed: unexpected response code 500: overloaded"])
  ∧ ¬ failures_all_logged (client failing) caller filter "" ranges []
  ∧ (∃ σ, exploreRun (client flaky) caller filter "" ranges
            [Run 1; Run 0; CtxDone 0]%nat [] = Some σ
          ∧ omap offered (tasks σ) = [["up"; "node_load1"]]
          ∧ metricNames σ = [])
  ∧ ¬ remaining_names_returned (client flaky) caller filter "" ranges [].
Proof.
  assert (Hx : (λ σ, (tasks σ !! 1%nat ≫= task_err, tasks σ !! 1%nat ≫= offered,
                      logged (trace σ))) <$>
                 exploreRun (client failing) caller filter "" ranges
                   [Run 0; Run 1]%nat []
               = Some (Some (ErrorString
                   "series request failed: unexpected response code 503: unavailable"),
                       None,
                       ["error eplore metrics: series request failed: unexpected response code 500: overloaded"])).
  { vm_compute. reflexivity. }
  apply fmap_Some in Hx as (σ & E & Hx). injection Hx as He Ho Hl.
  assert (Ht : tasks σ !! 1%nat = Some (Failed (ErrorString
            "series request failed: unexpected response code 503: unavailable"))).
  { destruct (tasks σ !! 1%nat) as [[| | | |]|]; by simplify_eq/=. }
  assert (Hy : (λ σ, (omap offered (tasks σ), metricNames σ)) <$>
                 exploreRun (client flaky) caller filter "" ranges
                   [Run 1; Run 0; CtxDone 0]%nat []
               = Some ([["up"; "node_load1"]], [])).
  { vm_compute. reflexivity. }
  apply fmap_Some in Hy as (σ' & E' & Hy). injection Hy as Ho' Hm'.
  split_and!.
  - by exists σ.
  - intros Hclaim. specialize (Hclaim _ σ _ _ E Ht). rewrite <- Hl in Hclaim.
    apply list_elem_of_singleton in Hclaim. by vm_compute in Hclaim.
  - by exists σ'.
  - intros Hclaim. specialize (Hclaim _ σ' E'). rewrite <- Ho', <- Hm' in Hclaim.
    by apply Permutation_nil_l in Hclaim.
Qed.

(** The second sub-range is asked first and gets the 500; the first
    sub-range gets its 200 and then finds the context done.  [Explore]
    returns no name and no error, and logs the 500. *)
Lemma Explore_errors_witness :
  ∃ names err t',
    Explore (client flaky) caller filter "" [Run 1; Run 0; CtxDone 0]%nat []
      = Some (names, err, t')
    ∧ names = [] ∧ err = None
    ∧ logged t' = ["error eplore metrics: series request failed: unexpected response code 500: overloaded"].
Proof.
  assert (Hx : (λ r, (r.1, logged r.2)) <$>
                 Explore (client flaky) caller filter ""
                   [Run 1; Run 0; CtxDone 0]%nat []
               = Some ([], None, ["error eplore metrics: series request failed: unexpected response code 500: overloaded"])).
  { vm_compute. reflexivity. }
  apply fmap_Some in Hx as ([[names err] t'] & E & Hx). simpl in Hx.
  injection Hx as <- <- Hlog.
  exists [], None, t'. split; [exact E|].
  destruct (Explore_errors _ _ _ _ _ _ _ _ _ E) as (Hiff & _ & Hnone).
  destruct (Hnone eq_refl) as (rs & σ & _ & _ & _ & _ & _ & _ & _ & _).
  by rewrite Hlog.
Defined.

(** Both sub-ranges are asked and deliver. *)
Lemma Explore_requests_witness :
  ∃ names err t',
    Explore (client steady) caller filter "" [Run 0; Send 0; Run 1; Send 1]%nat []
      = Some (names, err, t')
    ∧ length (sent t') = 2%nat
    ∧ ∀ r, r ∈ sent t' →
        req_method r = MethodGet
        ∧ req_url r = "http://vm:8428/api/v1/label/__name__/values"
        ∧ req_query r !! "match[]" = Some ["up"].
Proof.
  assert (Hx : (λ r, length (sent r.2)) <$>
                 Explore (client steady) caller filter ""
                   [Run 0; Send 0; Run 1; Send 1]%nat [] = Some 2%nat).
  { vm_compute. reflexivity. }
  apply fmap_Some in Hx as ([[names err] t'] & E & Hn). simpl in Hn.
  destruct (Explore_requests _ _ _ _ _ _ _ _ _ E) as (reqs & Hs & Hreqs).
  exists names, err, t'. split_and!; [done|done|].
  rewrite Hs. simpl. intros r Hr.
  destruct (Hreqs r Hr) as (rs & times & q & _ & _ & _ & Hm & _ & _ & Hu & Hq & _).
  split_and!; [done|by apply Hu|done].
Defined.

(** C2, as the spec words it, fails: the first sub-range is answered 500,
    its task returns the error, and the group's context is done while the
    caller's is not. *)
Lemma peer_failure_cancels :
  (∃ σ, run (client flaky) caller filter "" (exploreInit ranges []) [Run 0%nat] = Some σ
        ∧ parent_err σ = None
        ∧ ctx_err σ = Some context_Canceled
        ∧ g_err σ = Some (ErrorString
            "series request failed: unexpected response code 500: overloaded"))
  ∧ ¬ peer_failures_never_cancel (client flaky) caller filter "" ranges [].
Proof.
  assert (Hx : (λ σ, (parent_err σ, ctx_err σ, g_err σ)) <$>
                 run (client flaky) caller filter "" (exploreInit ranges [])
                   [Run 0%nat]
               = Some (None, Some context_Canceled, Some (ErrorString
                   "series request failed: unexpected response code 500: overloaded"))).
  { vm_compute. reflexivity. }
  apply fmap_Some in Hx as (σ & E & Hx). injection Hx as Hp Hc Hg.
  split; [by exists σ|].
  intros Hclaim. destruct (Hclaim [Run 0%nat] σ E) as [e He].
  - by rewrite <- Hc.
  - congruence.
Qed.

(** The same run, read with the amended claim. *)
Lemma group_context_done_witness :
  ∃ σ, run (client flaky) caller filter "" (exploreInit ranges []) [Run 0%nat] = Some σ
       ∧ (is_Some (ctx_err σ) ↔ is_Some (parent_err σ) ∨ some_task is_Failed σ).
Proof.
  assert (Hx : (λ _, ()) <$> run (client flaky) caller filter "" (exploreInit ranges [])
                          [Run 0%nat] = Some ()).
  { vm_compute. reflexivity. }
  apply fmap_Some in Hx as (σ & E & _). exists σ. split; [exact E|].
  by destruct (group_context_done _ _ _ _ _ _ _ _ E) as [_ ?].
Defined.




(** When both sub-ranges deliver, the second first, the names are the two
    lists, whole, in that order. *)
Lemma Explore_whole_blocks_witness :
  ∃ σ order,
    exploreRun (client varied) caller filter "" ranges
      [Run 0; Run 1; Send 1; Send 0]%nat [] = Some σ
    ∧ NoDup order
    ∧ metricNames σ = ["node_load1"; "node_cpu"; "up"]
    ∧ Explore (client varied) caller filter "" [Run 0; Run 1; Send 1; Send 0]%nat []
        = Some (concat (block (tasks σ) <$> order), None, trace σ).
Proof.
  assert (Hx : metricNames <$> exploreRun (client varied) caller filter "" ranges
                 [Run 0; Run 1; Send 1; Send 0]%nat []
               = Some ["node_load1"; "node_cpu"; "up"]).
  { vm_compute. reflexivity. }
  apply fmap_Some in Hx as (σ & E & Hm).
  destruct (Explore_whole_blocks _ _ _ _ _ _ _ _ filter_ranges E)
    as (order & Hnd & He & _).
  by exists σ, order.
Defined.

(** ** The further properties on the concrete world *)

(** Against a server that is down: [ExportPipe]'s error still leads to the
    transport's, [ImportPipe]'s does not. *)
Lemma transport_error_chains_witness :
  (∃ err, (ExportPipe (client down) caller export_url filter []).1 = (None, Some err)
          ∧ ErrorString "connection refused" ∈ errors_chain err)
  ∧ (∃ err, (ImportPipe (client down) caller import_url payload []).1 = Some err
            ∧ errors_chain err = [err]).
Proof.
  destruct (transport_error_chains (client down) caller export_url filter payload []
              (ErrorString "connection refused") (λ _ _, eq_refl))
    as (Hex & _ & _).
  destruct (transport_error_chains (client down) caller import_url filter payload []
              (ErrorString "connection refused") (λ _ _, eq_refl))
    as (_ & Him & _).
  destruct (Hex ∅ eq_refl) as (err & He & _ & Hin).
  destruct (Him ∅ eq_refl) as (err' & He' & Hc & _).
  split; [by exists err|by exists err'].
Defined.

(** Two filters that differ in match and chunk only list the same tenants. *)
Lemma GetSourceTenants_ignores_match_witness :
  GetSourceTenants (client steady) caller filter []
    = GetSourceTenants (client steady) caller (mkFilter "node_.*" t0 t2 "month") [].
Proof.
  by destruct (GetSourceTenants_ignores_match (client steady) caller filter
                 (mkFilter "node_.*" t0 t2 "month") [] eq_refl eq_refl) as [? _].
Defined.

(** Two sub-ranges, two requests. *)
Lemma Explore_one_request_per_range_witness :
  ∃ σ, exploreRun (client flaky) caller filter "" ranges
         [Run 1; Run 0; CtxDone 0]%nat [] = Some σ
       ∧ length (sent (trace σ)) = 2%nat.
Proof.
  assert (Hx : (λ _, ()) <$> exploreRun (client flaky) caller filter "" ranges
                 [Run 1; Run 0; CtxDone 0]%nat [] = Some ()).
  { vm_compute. reflexivity. }
  apply fmap_Some in Hx as (σ & E & _). exists σ. split; [exact E|].
  destruct (Explore_one_request_per_range _ _ _ _ _ _ _ _ filter_ranges E)
    as (reqs & Hs & _ & Hlen & _).
  rewrite Hs. simpl. by rewrite (Hlen ∅ eq_refl).
Defined.

(** Both sub-ranges answer with one name: two names come back. *)
Lemma Explore_all_succeed_witness :
  ∃ σ, exploreRun (client steady) caller filter "" ranges
         [Run 1; Run 0; Send 0; Send 1]%nat [] = Some σ
       ∧ metricNames σ ≡ₚ ["up"; "up"]
       ∧ logged (trace σ) = [].
Proof.
  assert (Hx : parent_err <$> exploreRun (client steady) caller filter "" ranges
                 [Run 1; Run 0; Send 0; Send 1]%nat [] = Some None).
  { vm_compute. reflexivity. }
  apply fmap_Some in Hx as (σ & E & Hp). exists σ. split; [exact E|].
  destruct (Explore_all_succeed (client steady) caller filter "" ranges
              (λ _, ["up"]) [Run 1; Run 0; Send 0; Send 1]%nat [] σ filter_ranges)
    as (_ & Hperm & Hlog); [|exact E|done|by split].
  intros times t1 _. reflexivity.
Defined.
(** With a splitter that yields nothing for an empty interval, [Explore]
    over such an interval returns at once. *)
Lemma Explore_no_ranges_witness :
  Explore strict_client caller instant "" [] [] = Some ([], None, []).
Proof.
  by destruct (Explore_no_ranges strict_client caller instant ""
                 [] [] [] [] None eq_refl) as [? _].
Defined.

(** The first sub-range fails with the 500; whatever the second then does,
    the log line is about the 500. *)
Lemma Explore_logs_first_error_witness :
  ∃ σ, exploreRun (client flaky) caller filter "" ranges
         ([Run 0] ++ [Run 1; CtxDone 1])%nat [] = Some σ
       ∧ logged (trace σ) = ["error eplore metrics: series request failed: unexpected response code 500: overloaded"].
Proof.
  assert (H1 : g_err <$> run (client flaky) caller filter "" (exploreInit ranges [])
                 [Run 0%nat]
               = Some (Some (ErrorString
                   "series request failed: unexpected response code 500: overloaded"))).
  { vm_compute. reflexivity. }
  apply fmap_Some in H1 as (σ1 & E1 & Hg).
  assert (Hx : (λ _, ()) <$> exploreRun (client flaky) caller filter "" ranges
                 ([Run 0] ++ [Run 1; CtxDone 1])%nat [] = Some ()).
  { vm_compute. reflexivity. }
  apply fmap_Some in Hx as (σ & E & _). exists σ. split; [exact E|].
  by destruct (Explore_logs_first_error _ _ _ _ _ _ _ _ _ _ _ E1 (eq_sym Hg) E)
    as [_ ?].
Defined.

(** The body of the 500 is neither decoded nor closed; the body of the
    200 is decoded and closed. *)
Lemma Explore_closes_decoded_witness :
  ∃ names err t',
    Explore (client flaky) caller filter "" [Run 0; Run 1; CtxDone 1]%nat []
      = Some (names, err, t')
    ∧ ∃ dl, decoded t' = dl
            ∧ closed t' = base.filter (λ b, decodes_ok json_Decode_Response b) dl.
Proof.
  assert (Hx : (λ _, ()) <$> Explore (client flaky) caller filter ""
                 [Run 0; Run 1; CtxDone 1]%nat [] = Some ()).
  { vm_compute. reflexivity. }
  apply fmap_Some in Hx as ([[names err] t'] & E & _).
  exists names, err, t'. split; [exact E|].
  by destruct (Explore_closes_decoded _ _ _ _ _ _ _ _ _ E) as (dl & ? & ?); exists dl.
Defined.

(** A client whose address has a blank in it: nothing is sent, one error
    is logged, and the call returns no name and no error. *)
Lemma Explore_bad_url_witness :
  ∃ σ, exploreRun (broken steady) caller filter "" ranges [Run 0; Run 1]%nat []
         = Some σ
       ∧ Explore (broken steady) caller filter "" [Run 0; Run 1]%nat []
           = Some ([], None, trace σ)
       ∧ sent (trace σ) = [].
Proof.
  assert (Hx : (λ _, ()) <$> exploreRun (broken steady) caller filter "" ranges
                 [Run 0; Run 1]%nat [] = Some ()).
  { vm_compute. reflexivity. }
  apply fmap_Some in Hx as (σ & E & _). exists σ. split; [exact E|].
  by destruct (Explore_bad_url (broken steady) caller filter "" ranges _ [] σ
                 (ErrorString "invalid character in host name")
                 eq_refl filter_ranges E) as (? & ? & _).
Defined.

(** The task that gave up after the 500 of its peer returned
    [context.Canceled]. *)
Lemma abandoned_cause_witness :
  ∃ σ, run (client flaky) caller filter "" (exploreInit ranges [])
         [Run 1; Run 0; CtxDone 0]%nat = Some σ
       ∧ tasks σ !! 0%nat = Some (Abandoned ["up"; "node_load1"] context_Canceled)
       ∧ some_task is_Failed σ.
Proof.
  assert (Hx : (λ σ, (tasks σ !! 0%nat ≫= offered, tasks σ !! 0%nat ≫= task_err,
                      parent_err σ)) <$>
                 run (client flaky) caller filter "" (exploreInit ranges [])
                   [Run 1; Run 0; CtxDone 0]%nat
               = Some (Some ["up"; "node_load1"], Some context_Canceled, None)).
  { vm_compute. reflexivity. }
  apply fmap_Some in Hx as (σ & E & Hx). injection Hx as Ho Hk Hp.
  assert (Ht : tasks σ !! 0%nat
               = Some (Abandoned ["up"; "node_load1"] context_Canceled)).
  { destruct (tasks σ !! 0%nat) as [[| | | |]|]; by simplify_eq/=. }
  exists σ. split; [exact E|]. split; [done|].
  by destruct (abandoned_cause _ _ _ _ _ _ _ _ _ _ _ E Ht) as [_ [_ ?]].
Defined.

End examples.
